(** * static_def_gen.py: a shallow embedding and its verified properties

    The script [src/codegen/static_def_gen.py] embeds binary files in a
    C++ source file.  It enumerates the files of directories and .zip
    archives, keeps those whose relative path matches a regular expression,
    sorts them by path, and writes one byte array per file followed by a
    table of all the files.

    The embedding follows the script function by function:
    [EnumerateInputs], [_GetName], [Generate] and [main].  The pieces of the
    Python runtime the script calls ([str.split], [str.replace],
    [posixpath.basename], [posixpath.splitext], [sorted], [os.walk],
    [zipfile.ZipFile], [re]) are modelled next to it, each from its
    documented behaviour. *)

From Stdlib Require Import List String Ascii Strings.Byte NArith ZArith Bool Lia.
From Stdlib Require Import DecimalString Sorting.Sorted Sorting.Permutation.
From Equations Require Import Equations.
Import ListNotations.

Local Open Scope string_scope.
Local Open Scope list_scope.

(** String concatenation, written apart from list concatenation. *)
Infix "+s+" := String.append (at level 60, right associativity).

(** The newline character and the one-character string holding it. *)
Definition LF : ascii := ascii_of_nat 10.
Definition nl : string := String LF EmptyString.

(** The one-character string holding a double quote. *)
Definition dq : string := String (ascii_of_nat 34) EmptyString.

(* ===================================================================== *)
(** * Python runtime *)
(* ===================================================================== *)

Module Py.

(** The exceptions the script can meet.  [FileNotFoundError],
    [PermissionError] and [IsADirectoryError] are subclasses of [OSError];
    [re_error] is [re.error]; [BadZipFile] is [zipfile.BadZipFile]. *)
Inductive exn : Type :=
| IndexError
| KeyError
| re_error
| FileNotFoundError
| PermissionError
| IsADirectoryError
| BadZipFile.

Definition exn_eq_dec (a b : exn) : {a = b} + {a <> b}.
Proof. decide equality. Defined.

(** [isinstance(e, OSError)]. *)
Definition is_OSError (e : exn) : bool :=
  match e with
  | FileNotFoundError | PermissionError | IsADirectoryError => true
  | _ => false
  end.

(** A call either returns or raises. *)
Inductive result (A : Type) : Type :=
| Ok (a : A)
| Raise (e : exn).
Arguments Ok {A} a.
Arguments Raise {A} e.

(** [l[i]] on a list: raises [IndexError] out of range. *)
Definition getitem {A} (l : list A) (i : nat) : result A :=
  match nth_error l i with
  | Some a => Ok a
  | None => Raise IndexError
  end.

(** [s.partition(sep)] for a one-character separator: the text before the
    first [sep] and the text after it, or [None] when [sep] does not occur. *)
Fixpoint partition (sep : ascii) (s : string) : option (string * string) :=
  match s with
  | EmptyString => None
  | String c s' =>
      if Ascii.eqb c sep then Some (EmptyString, s')
      else match partition sep s' with
           | Some (before, after) => Some (String c before, after)
           | None => None
           end
  end.

(** [s.split(sep, maxsplit)] for a one-character separator: at most
    [maxsplit] splits are done, from the left, so the result has at most
    [maxsplit + 1] elements and the last one holds the unsplit rest. *)
Fixpoint split (sep : ascii) (maxsplit : nat) (s : string) : list string :=
  match maxsplit with
  | O => [s]
  | S m =>
      match partition sep s with
      | None => [s]
      | Some (before, after) => before :: split sep m after
      end
  end.

(** [s.replace(old, new)] for one-character [old] and [new]. *)
Fixpoint replace (old new : ascii) (s : string) : string :=
  match s with
  | EmptyString => EmptyString
  | String c s' =>
      String (if Ascii.eqb c old then new else c) (replace old new s')
  end.

(** [s.rfind(c)]: the index of the last [c] in [s], or [-1]. *)
Fixpoint rfind_from (c : ascii) (s : string) (i last : Z) : Z :=
  match s with
  | EmptyString => last
  | String a s' =>
      rfind_from c s' (i + 1) (if Ascii.eqb a c then i else last)
  end.

Definition rfind (c : ascii) (s : string) : Z := rfind_from c s 0 (-1).

(** The slices [s[i:]] and [s[:i]] for an index [i >= 0] (the only ones
    the path functions below take). *)
Fixpoint drop (n : nat) (s : string) : string :=
  match n, s with
  | O, _ => s
  | S _, EmptyString => EmptyString
  | S n', String _ s' => drop n' s'
  end.

Fixpoint take (n : nat) (s : string) : string :=
  match n, s with
  | O, _ => EmptyString
  | S _, EmptyString => EmptyString
  | S n', String c s' => String c (take n' s')
  end.

Definition slice_from (i : Z) (s : string) : string := drop (Z.to_nat i) s.
Definition slice_to (i : Z) (s : string) : string := take (Z.to_nat i) s.
Definition slice (i j : Z) (s : string) : string :=
  take (Z.to_nat (j - i)) (drop (Z.to_nat i) s).

(** [ord(b)] of a one-byte [bytes] object, and [str(n)] of an integer. *)
Definition ord (b : byte) : N := Byte.to_N b.
Definition str (n : N) : string := NilZero.string_of_uint (N.to_uint n).

End Py.
Import Py.

(** ** Computations that emit and may raise

    A generator yields items until it returns or raises, and the code
    generator writes chunks of text until it returns or raises: both are a
    list of what was emitted before the end, and how it ended. *)
Definition eff (W A : Type) : Type := (list W * result A)%type.

Definition emitted {W A} (m : eff W A) : list W := fst m.
Definition outcome {W A} (m : eff W A) : result A := snd m.

Definition ret {W A} (a : A) : eff W A := ([], Ok a).
Definition emit {W} (w : W) : eff W unit := ([w], Ok tt).
Definition lift {W A} (r : result A) : eff W A := ([], r).

Definition bind {W A B} (m : eff W A) (k : A -> eff W B) : eff W B :=
  match snd m with
  | Ok a => (fst m ++ fst (k a), snd (k a))
  | Raise e => (fst m, Raise e)
  end.

Notation "x <- m ;; k" := (bind m (fun x => k))
  (at level 61, m at next level, right associativity).
Notation "m ;; k" := (bind m (fun _ => k))
  (at level 61, right associativity).

(** [for x in l: body(x)]. *)
Fixpoint for_each {W A} (l : list A) (body : A -> eff W unit) : eff W unit :=
  match l with
  | [] => ret tt
  | x :: l' => body x ;; for_each l' body
  end.

(* ===================================================================== *)
(** * posixpath *)
(* ===================================================================== *)

Module PosixPath.

Definition sep : ascii := "/"%char.
Definition extsep : ascii := "."%char.

(** [posixpath.basename]:
    [i = p.rfind('/') + 1; return p[i:]]. *)
Definition basename (p : string) : string :=
  let i := (rfind sep p + 1)%Z in
  slice_from i p.

(** The loop of [genericpath._splitext] that skips the leading dots of the
    file name: it returns [true] as soon as a character other than the
    extension separator is met at an index in [filenameIndex, dotIndex). *)
Fixpoint skip_leading_dots (p : string) (filenameIndex : Z) (count : nat) : bool :=
  match count with
  | O => false
  | S count' =>
      if negb (String.eqb (slice filenameIndex (filenameIndex + 1) p)
                          (String extsep EmptyString))
      then true
      else skip_leading_dots p (filenameIndex + 1) count'
  end.

(** [posixpath.splitext], that is [genericpath._splitext(p, '/', None, '.')]:
    the extension starts at the last dot of [p], when that dot is after
    the last separator and some character of the file name before it is
    not a dot. *)
Definition splitext (p : string) : string * string :=
  let sepIndex := rfind sep p in
  let dotIndex := rfind extsep p in
  if (sepIndex <? dotIndex)%Z then
    let filenameIndex := (sepIndex + 1)%Z in
    if skip_leading_dots p filenameIndex (Z.to_nat (dotIndex - filenameIndex))
    then (slice_to dotIndex p, slice_from dotIndex p)
    else (p, EmptyString)
  else (p, EmptyString).

End PosixPath.

(* ===================================================================== *)
(** * sorted *)
(* ===================================================================== *)

Module Sorted.
Section WithKey.

Context {A : Type} (key : A -> string).

(** [x] is put before the first element whose key is not below its own:
    the elements with an equal key that were after [x] stay after it. *)
Fixpoint insert (x : A) (l : list A) : list A :=
  match l with
  | [] => [x]
  | y :: l' =>
      if String.ltb (key y) (key x) then y :: insert x l'
      else x :: y :: l'
  end.

(** [sorted(l, key=key)].  Python's sort compares keys with [<] only and
    is stable; a stable sort has one possible result, the one that
    insertion from the right computes. *)
Definition sorted (l : list A) : list A := fold_right insert [] l.

End WithKey.
End Sorted.
Import Sorted.

(* ===================================================================== *)
(** * re *)
(* ===================================================================== *)

(** What the script uses of the [re] module: [re.compile], which raises
    [re.error] on a pattern it cannot parse, and the truth value of
    [pattern.match(s)], which is a match object when the pattern matches at
    the start of [s] and [None] otherwise. *)
Class ReEngine : Type := {
  Pattern : Type;
  re_compile : string -> result Pattern;
  Pattern_match : Pattern -> string -> bool
}.

(** An engine for a fragment of the syntax of [re]: literal characters,
    [.], [^], [$], [|], groups [( )], the repeats [*], [+], [?] (and their
    lazy forms [*?], [+?], [??]), and a backslash before a character that is
    not alphanumeric.  Character classes, bounded repeats, extension groups
    [(?...)] and alphanumeric escapes are outside the fragment and this
    engine refuses them. *)
Module MiniRe.

Inductive regex : Type :=
| Empty                         (* matches nothing *)
| Eps                           (* the empty string *)
| Chr (c : ascii)
| Any                           (* [.]: any character but a newline *)
| Bol                           (* [^]: at the start of the string *)
| Eol                           (* [$]: at the end, or before a final newline *)
| Cat (r1 r2 : regex)
| Alt (r1 r2 : regex)
| Star (r : regex).

Definition Plus (r : regex) : regex := Cat r (Star r).
Definition Opt (r : regex) : regex := Alt r Eps.

(** ** Parsing *)

(** An item of the branch being parsed, with what may follow it:
    an anchor takes no repeat, a repeated item takes only the lazy mark,
    a lazy repeat takes nothing more. *)
Inductive item_kind : Type := Plain | Anchor | Repeated | Lazy.

(** A group being parsed: the alternatives closed so far and the items of
    the current alternative, last first. *)
Record frame : Type := {
  alts : list regex;
  items : list (regex * item_kind)
}.

Definition empty_frame : frame := {| alts := []; items := [] |}.

Definition seq_of (its : list (regex * item_kind)) : regex :=
  fold_left (fun acc it => Cat (fst it) acc) its Eps.

Definition close_frame (f : frame) : regex :=
  fold_right Alt (seq_of (items f)) (alts f).

Definition push_item (r : regex) (k : item_kind) (f : frame) : frame :=
  {| alts := alts f; items := (r, k) :: items f |}.

(** A repeat operator applied to the last item. *)
Definition repeat (op : regex -> regex) (f : frame) : option frame :=
  match items f with
  | (r, Plain) :: its =>
      Some {| alts := alts f; items := (op r, Repeated) :: its |}
  | _ => None
  end.

(** [?] is a repeat after a plain item and the lazy mark after a repeat. *)
Definition question (f : frame) : option frame :=
  match items f with
  | (r, Plain) :: its =>
      Some {| alts := alts f; items := (Opt r, Repeated) :: its |}
  | (r, Repeated) :: its =>
      Some {| alts := alts f; items := (r, Lazy) :: its |}
  | _ => None
  end.

Definition is_alnum (c : ascii) : bool :=
  let n := nat_of_ascii c in
  ((48 <=? n) && (n <=? 57) || (65 <=? n) && (n <=? 90)
   || (97 <=? n) && (n <=? 122))%nat.

(** One pass over the pattern with the stack of the open groups; [cur] is
    the innermost one. *)
Fixpoint parse (s : string) (cur : frame) (stack : list frame) : option regex :=
  match s with
  | EmptyString =>
      match stack with
      | [] => Some (close_frame cur)
      | _ :: _ => None              (* missing ), unterminated subpattern *)
      end
  | String c s' =>
      if Ascii.eqb c "(" then
        match s' with
        | String "?" _ => None      (* extension group: outside the fragment *)
        | _ => parse s' empty_frame (cur :: stack)
        end
      else if Ascii.eqb c ")" then
        match stack with
        | [] => None                (* unbalanced parenthesis *)
        | parent :: stack' =>
            parse s' (push_item (close_frame cur) Plain parent) stack'
        end
      else if Ascii.eqb c "|" then
        parse s' {| alts := alts cur ++ [seq_of (items cur)]; items := [] |} stack
      else if Ascii.eqb c "*" then
        match repeat Star cur with
        | Some cur' => parse s' cur' stack
        | None => None              (* nothing to repeat, multiple repeat *)
        end
      else if Ascii.eqb c "+" then
        match repeat Plus cur with
        | Some cur' => parse s' cur' stack
        | None => None
        end
      else if Ascii.eqb c "?" then
        match question cur with
        | Some cur' => parse s' cur' stack
        | None => None
        end
      else if Ascii.eqb c "." then parse s' (push_item Any Plain cur) stack
      else if Ascii.eqb c "^" then parse s' (push_item Bol Anchor cur) stack
      else if Ascii.eqb c "$" then parse s' (push_item Eol Anchor cur) stack
      else if Ascii.eqb c "\" then
        match s' with
        | EmptyString => None       (* bad escape (end of pattern) *)
        | String e s'' =>
            if is_alnum e then None (* outside the fragment *)
            else parse s'' (push_item (Chr e) Plain cur) stack
        end
      else if Ascii.eqb c "[" || Ascii.eqb c "{" then None  (* outside the fragment *)
      else parse s' (push_item (Chr c) Plain cur) stack
  end.

Definition compile (s : string) : result regex :=
  match parse s empty_frame [] with
  | Some r => Ok r
  | None => Raise re_error
  end.

(** ** Matching *)

(** Whether [r] matches the empty string at a position, given whether the
    position is the start of the subject and what is left of the subject. *)
Fixpoint nullable (at_start : bool) (rest : string) (r : regex) : bool :=
  match r with
  | Empty | Chr _ | Any => false
  | Eps | Star _ => true
  | Bol => at_start
  | Eol => String.eqb rest EmptyString || String.eqb rest nl
  | Cat r1 r2 => nullable at_start rest r1 && nullable at_start rest r2
  | Alt r1 r2 => nullable at_start rest r1 || nullable at_start rest r2
  end.

(** What is left of [r] to match after the character [c], read at a
    position where [rest], which starts with [c], is left. *)
Fixpoint deriv (at_start : bool) (rest : string) (c : ascii) (r : regex) : regex :=
  match r with
  | Empty | Eps | Bol | Eol => Empty
  | Chr a => if Ascii.eqb a c then Eps else Empty
  | Any => if Ascii.eqb c LF then Empty else Eps
  | Cat r1 r2 =>
      let d1 := Cat (deriv at_start rest c r1) r2 in
      if nullable at_start rest r1
      then Alt d1 (deriv at_start rest c r2)
      else d1
  | Alt r1 r2 => Alt (deriv at_start rest c r1) (deriv at_start rest c r2)
  | Star r1 => Cat (deriv at_start rest c r1) (Star r1)
  end.

(** Whether [r] matches some prefix of [s]. *)
Fixpoint match_prefix (at_start : bool) (s : string) (r : regex) : bool :=
  nullable at_start s r ||
  match s with
  | EmptyString => false
  | String c s' => match_prefix false s' (deriv at_start s c r)
  end.

(** [bool(pattern.match(s))]: a match that starts at position 0. *)
Definition match_ (r : regex) (s : string) : bool := match_prefix true s r.

(** Whether nothing precedes a position of the subject. *)
Definition start_of (before : string) : bool :=
match before with
| EmptyString => true
| String _ _ => false
end.

(** ** What a match is

    [Matches r before u after]: in the subject [before ++ u ++ after] the
    pattern [r] matches the part [u] that starts after [before]. *)
Inductive Matches : regex -> string -> string -> string -> Prop :=
| MEps before after : Matches Eps before EmptyString after
| MChr c before after : Matches (Chr c) before (String c EmptyString) after
| MAny c before after :
    c <> LF -> Matches Any before (String c EmptyString) after
| MBol after : Matches Bol EmptyString EmptyString after
| MEol before after :
    after = EmptyString \/ after = nl -> Matches Eol before EmptyString after
| MCat r1 r2 before u v after :
    Matches r1 before u (v +s+ after) ->
    Matches r2 (before +s+ u) v after ->
    Matches (Cat r1 r2) before (u +s+ v) after
| MAltL r1 r2 before u after :
    Matches r1 before u after -> Matches (Alt r1 r2) before u after
| MAltR r1 r2 before u after :
    Matches r2 before u after -> Matches (Alt r1 r2) before u after
| MStar0 r before after : Matches (Star r) before EmptyString after
| MStarS r before u v after :
    Matches r before u (v +s+ after) ->
    Matches (Star r) (before +s+ u) v after ->
    Matches (Star r) before (u +s+ v) after.

(** The pattern matches at position 0 of the subject: it matches a prefix
    of it, whatever follows. *)
Definition matches_at_0 (r : regex) (s : string) : Prop :=
  exists u v, s = u +s+ v /\ Matches r EmptyString u v.

#[export] Instance engine : ReEngine := {|
  Pattern := regex;
  re_compile := compile;
  Pattern_match := match_
|}.

End MiniRe.

(* ===================================================================== *)
(** * os, zipfile and open *)
(* ===================================================================== *)

Module Os.

#[local] Set Warnings "-register-all".

(** What a location holds.  A regular file has its bytes and, when these
    bytes are a well-formed .zip archive, the members of the archive in
    the order of its central directory (the decoding itself is the
    business of [zipfile]).  A directory has its entries in the order
    [os.scandir] lists them.  [readable] and [listable] are the read
    permission of the running process. *)
Inductive node : Type :=
| File (readable : bool) (content : list byte)
       (archive : option (list (string * list byte)))
| Dir (listable : bool) (children : list (string * node)).

(** The file system, as the locations of the command line resolve in it. *)
Definition filesystem : Type := string -> option node.

Definition is_dir (n : node) : bool :=
  match n with
  | Dir _ _ => true
  | File _ _ _ => false
  end.

(** [os.path.isdir(p)]: false also when [p] does not exist. *)
Definition isdir (fs : filesystem) (p : string) : bool :=
  match fs p with
  | Some n => is_dir n
  | None => false
  end.

(** [os.walk(top)], top-down, with its default [onerror=None]: a
    directory that cannot be listed is skipped without an error.  Each
    directory gives a triple of its root, the names of its
    sub-directories and the names of its other entries; the root is kept
    as the list of the directory names from [top] down to it. *)
Fixpoint walk_node (root : list string) (n : node)
  : list (list string * list string * list string) :=
  match n with
  | Dir true children =>
      (root,
       map fst (filter (fun c => is_dir (snd c)) children),
       map fst (filter (fun c => negb (is_dir (snd c))) children))
      :: (fix walk_dirs (cs : list (string * node)) :=
            match cs with
            | [] => []
            | (name, child) :: cs' =>
                (if is_dir child then walk_node (root ++ [name]) child else [])
                ++ walk_dirs cs'
            end) children
  | _ => []
  end.

Definition walk (fs : filesystem) (top : string)
  : list (list string * list string * list string) :=
  match fs top with
  | Some n => walk_node [] n
  | None => []
  end.

(** [os.path.relpath(os.path.join(root, file_name), top)] for a [root]
    that [os.walk(top)] gave: the directory names from [top] down to
    [root], then [file_name], joined by the separator. *)
Definition relpath (root : list string) (file_name : string) : string :=
  String.concat "/" (root ++ [file_name]).

(** The node that the names lead to, from a directory down. *)
Fixpoint resolve (n : node) (names : list string) : option node :=
  match names with
  | [] => Some n
  | name :: names' =>
      match n with
      | Dir _ children =>
          match find (fun c => String.eqb (fst c) name) children with
          | Some (_, child) => resolve child names'
          | None => None
          end
      | File _ _ _ => None
      end
  end.

(** [open(os.path.join(root, file_name), 'rb')]: the stream of the bytes
    of the file. *)
Definition open_rb (fs : filesystem) (top : string) (root : list string)
           (file_name : string) : result (list byte) :=
  match fs top with
  | None => Raise FileNotFoundError
  | Some n =>
      match resolve n (root ++ [file_name]) with
      | Some (File true content _) => Ok content
      | Some (File false _ _) => Raise PermissionError
      | Some (Dir _ _) => Raise IsADirectoryError
      | None => Raise FileNotFoundError
      end
  end.

(** [f.read(n)]: the next [n] bytes, fewer at the end of the stream, and
    the stream after them. *)
Definition read (n : nat) (f : list byte) : list byte * list byte :=
  (firstn n f, skipn n f).

(** An open archive: its members. *)
Definition ZipFile_t : Type := list (string * list byte).

(** [zipfile.ZipFile(p, 'r')]. *)
Definition ZipFile (fs : filesystem) (p : string) : result ZipFile_t :=
  match fs p with
  | None => Raise FileNotFoundError
  | Some (Dir _ _) => Raise IsADirectoryError
  | Some (File false _ _) => Raise PermissionError
  | Some (File true _ None) => Raise BadZipFile
  | Some (File true _ (Some members)) => Ok members
  end.

(** [jar.namelist()]: the names of all the members, in order. *)
Definition namelist (jar : ZipFile_t) : list string := map fst jar.

(** [jar.open(name)]: the stream of the member of that name; a later
    member replaces an earlier one of the same name in the name table. *)
Definition jar_open (jar : ZipFile_t) (name : string) : result (list byte) :=
  match find (fun m => String.eqb (fst m) name) (rev jar) with
  | Some (_, content) => Ok content
  | None => Raise KeyError
  end.

End Os.
Import Os.

(* ===================================================================== *)
(** * static_def_gen.py *)
(* ===================================================================== *)

(** The dictionary that [EnumerateInputs] yields for a binary file: its
    relative path and the function that opens it. *)
Record binary_file : Type := {
  path : string;
  open : unit -> result (list byte)
}.

Section StaticDefGen.

Context {RE : ReEngine}.
Variable fs : filesystem.

(** The body of the loop of [EnumerateInputs] for one input. *)
Definition enumerate_input (current_input : string) : eff binary_file unit :=
  let components := split ":" 2 current_input in
  entry <- lift (getitem components 0) ;;
  source <- lift (getitem components 1) ;;
  pattern <- lift (re_compile source) ;;
  if isdir fs entry then
    for_each (walk fs entry) (fun '(root, unused_subdirs, files) =>
      for_each files (fun file_name =>
        let relative_path := relpath root file_name in
        if Pattern_match pattern relative_path then
          emit {| path := relative_path;
                  open := fun _ => open_rb fs entry root file_name |}
        else ret tt))
  else
    jar <- lift (ZipFile fs entry) ;;
    for_each (namelist jar) (fun entry =>
      if Pattern_match pattern entry then
        emit {| path := entry; open := fun _ => jar_open jar entry |}
      else ret tt).

(** [EnumerateInputs(inputs)]: the generator, as the entries it yields and
    how it ends. *)
Definition EnumerateInputs (inputs : list string) : eff binary_file unit :=
  for_each inputs enumerate_input.

(** [_GetName(item)]. *)
Definition _GetName (item : binary_file) : string :=
  replace "$" "_" (replace "." "_" (PosixPath.basename (path item))).

(** [re.sub('^\\.', '', s)]: without the MULTILINE flag the pattern
    matches only a dot at the start of [s]. *)
Definition sub_leading_dot (s : string) : string :=
  match s with
  | String "." s' => s'
  | _ => s
  end.

(** The extension written in the record of a file (line 147). *)
Definition extension (p : string) : string :=
  sub_leading_dot (snd (PosixPath.splitext p)).

(** The loop that reads the stream [f] one byte at a time, [byte] being
    the last result of [f.read(1)], and writes each byte in decimal. *)
Equations? read_loop (byte : list Byte.byte) (f : list Byte.byte)
  : list string by wf (List.length byte + List.length f) lt :=
  read_loop [] f := [];
  read_loop (b :: _) f :=
    (str (ord b) +s+ ", ") :: read_loop (fst (read 1 f)) (snd (read 1 f)).
Proof.
  unfold read; cbn [fst snd].
  destruct f; cbn; lia.
Qed.

(** Lines 123 to 134: the array and the path of one binary file. *)
Definition write_definition (binary_file : binary_file) : eff string unit :=
  let path := path binary_file in
  let name := _GetName binary_file in
  emit ("static constexpr uint8 k" +s+ name +s+ "[] = { ") ;;
  f <- lift (open binary_file tt) ;;
  for_each (read_loop (fst (read 1 f)) (snd (read 1 f))) emit ;;
  emit ("};" +s+ nl) ;;
  emit ("static constexpr char k" +s+ name +s+ "_path[] = " +s+ dq +s+ path
        +s+ dq +s+ ";" +s+ nl).

(** Lines 145 to 153: the record of one binary file in the table. *)
Definition write_record (binary_file : binary_file) : eff string unit :=
  let path := path binary_file in
  let name := _GetName binary_file in
  let ext := extension path in
  emit ("  {" +s+ nl) ;;
  emit ("    k" +s+ name +s+ "_path," +s+ nl) ;;
  emit ("    " +s+ dq +s+ ext +s+ dq +s+ "," +s+ nl) ;;
  emit ("    k" +s+ name +s+ "," +s+ nl) ;;
  emit ("    arraysize(k" +s+ name +s+ ")" +s+ nl) ;;
  emit ("  }," +s+ nl).

(** [sorted(EnumerateInputs(inputs), key=lambda binary_file:
    binary_file['path'])]: the generator is run to its end, and an
    exception it raises leaves [sorted]. *)
Definition sorted_inputs (inputs : list string) : result (list binary_file) :=
  match outcome (EnumerateInputs inputs) with
  | Ok _ => Ok (sorted path (emitted (EnumerateInputs inputs)))
  | Raise e => Raise e
  end.

(** [Generate(cc_file_path, inputs)]: the chunks written to the file, in
    order, and how the call ends.  The file is known by what is written to
    it: opening it, which empties it, and closing it are left out. *)
Definition Generate (cc_file_path : string) (inputs : list string)
  : eff string unit :=
  binary_files <- lift (sorted_inputs inputs) ;;
  for_each binary_files write_definition ;;
  emit nl ;;
  emit ("static constexpr struct {" +s+ nl) ;;
  emit ("  const char* path;" +s+ nl) ;;
  emit ("  const char* extension;" +s+ nl) ;;
  emit ("  const uint8* data;" +s+ nl) ;;
  emit ("  int data_size;" +s+ nl) ;;
  emit ("} kBinaryFiles[] = {" +s+ nl) ;;
  for_each binary_files write_record ;;
  emit ("};" +s+ nl).

(** How [main] ends: it prints the usage and exits with status -1, or it
    runs [Generate]. *)
Inductive main_result : Type :=
| Usage
| Generated (run : eff string unit).

(** [main()] on [sys.argv]. *)
Definition main (argv : list string) : main_result :=
  if (List.length argv <? 3)%nat
     || existsb (String.eqb (nth 1 argv EmptyString)) ["-?"; "--?"; "-h"; "--help"]
  then Usage
  else Generated (Generate (nth 1 argv EmptyString) (skipn 2 argv)).

End StaticDefGen.

(* ===================================================================== *)
(** * Vocabulary of the properties *)
(* ===================================================================== *)

(** Whether the character [c] occurs in [s]. *)
Fixpoint contains (c : ascii) (s : string) : bool :=
  match s with
  | EmptyString => false
  | String a s' => Ascii.eqb a c || contains c s'
  end.

Fixpoint map_string (f : ascii -> ascii) (s : string) : string :=
  match s with
  | EmptyString => EmptyString
  | String c s' => String (f c) (map_string f s')
  end.

(** The final segment of a path: the text after its last separator, the
    whole path when it has none. *)
Inductive final_segment (p seg : string) : Prop :=
| final_whole : contains "/" p = false -> seg = p -> final_segment p seg
| final_after dir :
    p = dir +s+ String "/" seg -> contains "/" seg = false ->
    final_segment p seg.

(** A dot or a dollar sign becomes an underscore, any other character is
    kept. *)
Definition sanitize (c : ascii) : ascii :=
  if Ascii.eqb c "." then "_"%char
  else if Ascii.eqb c "$" then "_"%char
  else c.

(** Whether [s] is made of dots only. *)
Fixpoint all_dots (s : string) : bool :=
  match s with
  | EmptyString => true
  | String c s' => Ascii.eqb c "." && all_dots s'
  end.

(** ** Reading an array back *)

Definition digit_value (c : ascii) : option N :=
  let n := N_of_ascii c in
  if ((48 <=? n) && (n <=? 57))%N then Some (n - 48)%N else None.

(** The elements of a byte array as a C++ compiler reads them after the
    opening brace: decimal integers, each followed by a comma and a space,
    up to the closing brace, the semicolon and the end of the line.  An
    element that is not a byte value is refused.  [acc] is the value of the
    digits read since the last comma. *)
Fixpoint decode_elements (acc : option N) (s : string) : option (list byte) :=
  match s with
  | EmptyString => None
  | String c s' =>
      match digit_value c with
      | Some d =>
          decode_elements
            (Some (10 * match acc with Some n => n | None => 0 end + d)%N) s'
      | None =>
          if Ascii.eqb c "," then
            match acc, s' with
            | Some n, String " " s'' =>
                match Byte.of_N n, decode_elements None s'' with
                | Some b, Some bs => Some (b :: bs)
                | _, _ => None
                end
            | _, _ => None
            end
          else if Ascii.eqb c "}" then
            match acc with
            | None => if String.eqb s' (";" +s+ nl) then Some [] else None
            | Some _ => None
            end
          else None
      end
  end.

(** One element of an array, the line that closes an array or the table,
    and the chunks of the array of a file named [name] with the bytes [f]:
    the opening, one element for each byte in order, the closing. *)
Definition element (b : byte) : string := str (ord b) +s+ ", ".

Definition closing : string := "};" +s+ nl.

Definition array_chunks (name : string) (f : list byte) : list string :=
  ("static constexpr uint8 k" +s+ name +s+ "[] = { ")
    :: map element f ++ [closing].

(** The declaration of the path of a file. *)
Definition path_chunk (name p : string) : string :=
  "static constexpr char k" +s+ name +s+ "_path[] = " +s+ dq +s+ p +s+ dq
  +s+ ";" +s+ nl.

(** What is written between the definitions and the records. *)
Definition table_header : list string :=
  [nl;
   "static constexpr struct {" +s+ nl;
   "  const char* path;" +s+ nl;
   "  const char* extension;" +s+ nl;
   "  const uint8* data;" +s+ nl;
   "  int data_size;" +s+ nl;
   "} kBinaryFiles[] = {" +s+ nl].

(** The record of a file named [name] with the extension [ext]. *)
Definition record_chunks (name ext : string) : list string :=
  ["  {" +s+ nl;
   "    k" +s+ name +s+ "_path," +s+ nl;
   "    " +s+ dq +s+ ext +s+ dq +s+ "," +s+ nl;
   "    k" +s+ name +s+ "," +s+ nl;
   "    arraysize(k" +s+ name +s+ ")" +s+ nl;
   "  }," +s+ nl].

(** The text of a list of chunks. *)
Definition text (chunks : list string) : string := String.concat EmptyString chunks.

(** ** The entries a source holds and those its pattern keeps *)

Section Candidates.

Context {RE : ReEngine}.
Variable fs : filesystem.

(** Every path that is tested against the pattern of a source: the
    relative paths of the files under a directory, the member names of an
    archive. *)
Definition candidates (entry : string) : list string :=
  if isdir fs entry then
    flat_map (fun '(root, _, files) => map (relpath root) files) (walk fs entry)
  else
    match ZipFile fs entry with
    | Ok jar => namelist jar
    | Raise _ => []
    end.

(** The entries that a directory and an open archive yield for a
    pattern. *)
Definition dir_entries (pattern : Pattern) (entry : string) : list binary_file :=
  flat_map (fun '(root, _, files) =>
      map (fun file_name =>
             {| path := relpath root file_name;
                open := fun _ => open_rb fs entry root file_name |})
          (filter (fun file_name => Pattern_match pattern (relpath root file_name))
                  files))
    (walk fs entry).

Definition jar_entries (pattern : Pattern) (jar : ZipFile_t) : list binary_file :=
  map (fun name => {| path := name; open := fun _ => jar_open jar name |})
      (filter (Pattern_match pattern) (namelist jar)).

(** The paths of a source that its pattern matches, one for each
    candidate that matches. *)
Definition matched_paths (spec : string) : list string :=
  match split ":" 2 spec with
  | entry :: source :: _ =>
      match re_compile source with
      | Ok pattern => filter (Pattern_match pattern) (candidates entry)
      | Raise _ => []
      end
  | _ => []
  end.

End Candidates.

(** The help flags of [main]. *)
Definition is_help_flag (arg : string) : bool :=
  existsb (String.eqb arg) ["-?"; "--?"; "-h"; "--help"].

(** The chunk that opens a record of the table. *)
Definition record_open : string := "  {" +s+ nl.

(** The number of records of the table in what was written. *)
Definition record_count (chunks : list string) : nat :=
  count_occ string_dec chunks record_open.

(** ** Ordering of paths *)

Definition path_le (a b : string) : Prop := String.leb a b = true.
Definition path_lt (a b : string) : Prop := String.ltb a b = true.

(** ** Readings of the specification that the code is tested against *)

Section Readings.

Context {RE : ReEngine}.
Variable fs : filesystem.

(** Some argument carries a pattern that does not compile. *)
Definition has_invalid_pattern (inputs : list string) : Prop :=
  exists spec entry source rest e,
    In spec inputs
    /\ split ":" 2 spec = entry :: source :: rest
    /\ re_compile source = Raise e.

(** The run fails on the pattern before any entry of any source is
    enumerated. *)
Definition fails_before_any_enumeration (inputs : list string) : Prop :=
  has_invalid_pattern inputs ->
  exists e, EnumerateInputs fs inputs = ([], Raise e).

(** The location is a directory that does not exist or may not be
    listed. *)
Definition missing_or_unlistable (entry : string) : Prop :=
  fs entry = None \/ exists children, fs entry = Some (Dir false children).

(** The enumeration of a source whose directory does not exist or may
    not be listed fails with an [OSError]. *)
Definition bad_directory_raises_OSError (spec : string) : Prop :=
  forall entry source rest pattern,
    split ":" 2 spec = entry :: source :: rest ->
    re_compile source = Ok pattern ->
    missing_or_unlistable entry ->
    exists e, outcome (EnumerateInputs fs [spec]) = Raise e
              /\ is_OSError e = true.

(** The entries come out in strictly ascending order of path. *)
Definition strictly_ascending (inputs : list string) : Prop :=
  forall binary_files,
    sorted_inputs fs inputs = Ok binary_files ->
    StronglySorted path_lt (map path binary_files).

(** The pattern of an argument is all the text after its first colon. *)
Definition pattern_is_text_after_first_colon (spec : string) : Prop :=
  forall entry after,
    partition ":" spec = Some (entry, after) ->
    getitem (split ":" 2 spec) 1 = Ok after.

End Readings.

(** ** File systems of the examples *)

(** The pattern [^a/b], compiled. *)
Definition example_pattern : MiniRe.regex :=
  MiniRe.Cat MiniRe.Bol
    (MiniRe.Cat (MiniRe.Chr "a")
       (MiniRe.Cat (MiniRe.Chr "/") (MiniRe.Cat (MiniRe.Chr "b") MiniRe.Eps))).

(** An entry with the given path and bytes. *)
Definition example_file (p : string) (content : list byte) : binary_file :=
  {| path := p; open := fun _ => Ok content |}.

Definition file (content : list byte) : node := File true content None.

(** [/tmp/in] holds [a/b/One.class] and [a/b/file.txt]; [/tmp/locked] is a
    directory that the process may not list; [/tmp/notes.txt] is a file that
    is not an archive; [/tmp/file.jar] is an archive. *)
Definition example_fs : filesystem := fun p =>
  if String.eqb p "/tmp/in" then
    Some (Dir true
      [("a", Dir true
         [("b", Dir true
            [("One.class", file [x47; x49; x48]);
             ("file.txt", file [x68; x69])])])])
  else if String.eqb p "/tmp/locked" then
    Some (Dir false [("One.class", file [x47; x49; x48])])
  else if String.eqb p "/tmp/notes.txt" then
    Some (file [x68; x69])
  else if String.eqb p "/tmp/file.jar" then
    Some (File true [x50; x4b]
      (Some [("a/b/c.txt", [x01]); ("x/a/b", [x02; x03]); ("ax", [])]))
  else None.

(** [/tmp/res] holds two files of the same name in two directories and a
    file that the process may not read; [/tmp/dup.jar] is an archive with
    two members of the same name. *)
Definition example_fs_res : filesystem := fun p =>
  if String.eqb p "/tmp/res" then
    Some (Dir true
      [("x", Dir true [("Same.class", file [x01])]);
       ("y", Dir true [("Same.class", file [x02]);
                       ("Secret.bin", File false [x03] None)])])
  else if String.eqb p "/tmp/dup.jar" then
    Some (File true [x50; x4b]
      (Some [("m", [x01]); ("n", [x02]); ("m", [x03])]))
  else None.

(** The pattern of the header of the script for class files, compiled. *)
Definition example_class_pattern : MiniRe.regex :=
  match MiniRe.compile "^a/b/.*\.class$" with
  | Ok r => r
  | Raise _ => MiniRe.Empty
  end.

(** The chunk that opens the array of a file named [name]. *)
Definition array_open (name : string) : string :=
  "static constexpr uint8 k" +s+ name +s+ "[] = { ".

(* ===================================================================== *)
(** * Strings and paths *)
(* ===================================================================== *)

Section StringFacts.

Lemma append_nil_r s : s +s+ EmptyString = s.
Proof. induction s; cbn; congruence. Qed.

Lemma append_assoc s t u : (s +s+ t) +s+ u = s +s+ (t +s+ u).
Proof. induction s; cbn; congruence. Qed.

Lemma length_append s t :
  String.length (s +s+ t) = String.length s + String.length t.
Proof. induction s; cbn; congruence. Qed.

Lemma contains_append c s t :
  contains c (s +s+ t) = contains c s || contains c t.
Proof.
  induction s as [|a s IH]; cbn; [reflexivity|].
  rewrite IH. now rewrite orb_assoc.
Qed.

Lemma drop_append u v : drop (String.length u) (u +s+ v) = v.
Proof. induction u; cbn; auto. Qed.

Lemma take_append u v : take (String.length u) (u +s+ v) = u.
Proof. induction u; cbn; congruence. Qed.

Lemma rfind_from_absent c s i last :
  contains c s = false -> rfind_from c s i last = last.
Proof.
  revert i last. induction s as [|a s IH]; cbn; intros i last H; [reflexivity|].
  apply orb_false_iff in H as [Ha Hs].
  rewrite Ha. now apply IH.
Qed.

Lemma rfind_from_last c u v i last :
  contains c v = false ->
  rfind_from c (u +s+ String c v) i last = (i + Z.of_nat (String.length u))%Z.
Proof.
  revert i last. induction u as [|a u IH]; cbn [String.append String.length rfind_from];
    intros i last H.
  - rewrite Ascii.eqb_refl, rfind_from_absent by assumption. lia.
  - rewrite IH by assumption. lia.
Qed.

Lemma rfind_absent c s : contains c s = false -> rfind c s = (-1)%Z.
Proof. apply rfind_from_absent. Qed.

Lemma rfind_last c u v :
  contains c v = false ->
  rfind c (u +s+ String c v) = Z.of_nat (String.length u).
Proof. intros H. unfold rfind. now rewrite rfind_from_last. Qed.

(** The last occurrence is inside the string. *)
Lemma rfind_from_bounds c s i last :
  (last < i)%Z ->
  (last <= rfind_from c s i last < i + Z.of_nat (String.length s))%Z
  \/ rfind_from c s i last = last.
Proof.
  revert i last. induction s as [|a s IH]; cbn [rfind_from String.length];
    intros i last Hl; [now right|].
  destruct (Ascii.eqb a c).
  - destruct (IH (i + 1)%Z i ltac:(lia)) as [H|H]; left; lia.
  - destruct (IH (i + 1)%Z last ltac:(lia)) as [H|H]; [left; lia|now right].
Qed.

Lemma rfind_lt_length c s : (-1 <= rfind c s < Z.of_nat (String.length s))%Z.
Proof.
  unfold rfind.
  destruct (rfind_from_bounds c s 0 (-1) ltac:(lia)) as [H|H]; lia.
Qed.

(** Characters after the last [c] do not move it. *)
Lemma rfind_from_append_absent c u v i last :
  contains c v = false ->
  rfind_from c (u +s+ v) i last = rfind_from c u i last.
Proof.
  revert i last. induction u as [|a u IH]; cbn [String.append rfind_from];
    intros i last H.
  - now apply rfind_from_absent.
  - now apply IH.
Qed.

Lemma rfind_append_absent c u v :
  contains c v = false -> rfind c (u +s+ v) = rfind c u.
Proof. apply rfind_from_append_absent. Qed.

(** Every path has a final segment, and only one. *)
Lemma final_segment_exists p : exists seg, final_segment p seg.
Proof.
  induction p as [|a p [seg IH]].
  - exists EmptyString. now apply final_whole.
  - destruct IH as [Hno Heq | dir Heq Hno].
    + subst seg. destruct (Ascii.eqb a "/") eqn:Ha.
      * apply Ascii.eqb_eq in Ha. subst a.
        exists p. now apply (final_after _ _ EmptyString).
      * exists (String a p). apply final_whole; [|reflexivity].
        cbn. now rewrite Ha.
    + exists seg. apply (final_after _ _ (String a dir)); [|assumption].
      cbn. now rewrite Heq.
Qed.

Lemma basename_final_segment p seg :
  final_segment p seg -> PosixPath.basename p = seg.
Proof.
  unfold PosixPath.basename, PosixPath.sep, slice_from.
  intros [Hno Heq | dir Heq Hno].
  - subst seg. now rewrite rfind_absent.
  - subst p. rewrite rfind_last by assumption.
    replace (Z.to_nat (Z.of_nat (String.length dir) + 1))
      with (String.length (dir +s+ String "/" EmptyString))
      by (rewrite length_append; cbn; lia).
    replace (dir +s+ String "/" seg)
      with ((dir +s+ String "/" EmptyString) +s+ seg)
      by (now rewrite append_assoc).
    apply drop_append.
Qed.

Lemma final_segment_unique p seg seg' :
  final_segment p seg -> final_segment p seg' -> seg = seg'.
Proof.
  intros H H'. apply basename_final_segment in H, H'. congruence.
Qed.

Lemma replace_replace_sanitize s :
  replace "$" "_" (replace "." "_" s) = map_string sanitize s.
Proof.
  induction s as [|c s IH]; cbn; [reflexivity|].
  rewrite IH. f_equal. unfold sanitize.
  destruct (Ascii.eqb c ".") eqn:Hdot; [reflexivity|].
  reflexivity.
Qed.

End StringFacts.

(* ===================================================================== *)
(** * The name and the extension of a file *)
(* ===================================================================== *)

(** C6.  The identifier that [_GetName] derives from an entry is the final
    segment of its relative path (the text after the last separator) in
    which every dot and every dollar sign is replaced by an underscore and
    every other character is kept. *)
Theorem GetName_sanitized_final_segment (item : binary_file) (seg : string) :
  final_segment (path item) seg ->
  _GetName item = map_string sanitize seg.
Proof.
  intros H. unfold _GetName.
  rewrite (basename_final_segment _ _ H).
  apply replace_replace_sanitize.
Qed.

(** The example of the specification: [a/b/My.File$1.class] gives
    [My_File_1_class]. *)
Lemma GetName_sanitized_final_segment_witness :
  final_segment "a/b/My.File$1.class" "My.File$1.class"
  /\ _GetName (example_file "a/b/My.File$1.class" []) = "My_File_1_class".
Proof.
  assert (H : final_segment "a/b/My.File$1.class" "My.File$1.class")
    by (now apply (final_after _ _ "a/b")).
  split; [exact H|].
  exact (GetName_sanitized_final_segment
           (example_file "a/b/My.File$1.class" []) _ H).
Defined.

Section Splitext.

(** A path is what precedes its final segment, then the segment; the last
    separator is the last character of what precedes, and a dot that is
    not in the segment is before that separator. *)
Lemma final_segment_split p seg :
  final_segment p seg ->
  exists pre,
    p = pre +s+ seg
    /\ rfind "/" p = (Z.of_nat (String.length pre) - 1)%Z
    /\ (rfind "." pre <= Z.of_nat (String.length pre) - 1)%Z
    /\ (pre <> EmptyString -> (rfind "." pre < Z.of_nat (String.length pre) - 1)%Z).
Proof.
  intros [Hno Heq | dir Heq Hno].
  - subst seg. exists EmptyString. cbn. rewrite rfind_absent by assumption.
    repeat split; try lia. congruence.
  - exists (dir +s+ String "/" EmptyString).
    subst p. rewrite append_assoc. cbn [String.append].
    rewrite rfind_last by assumption.
    rewrite length_append. cbn [String.length].
    rewrite rfind_append_absent by reflexivity.
    pose proof (rfind_lt_length "." dir).
    repeat split; try lia.
Qed.

Lemma slice_one pre a rest :
  slice (Z.of_nat (String.length pre)) (Z.of_nat (String.length pre) + 1)
        (pre +s+ String a rest)
  = String a EmptyString.
Proof.
  unfold slice.
  replace (Z.to_nat (Z.of_nat (String.length pre) + 1 - Z.of_nat (String.length pre)))
    with 1 by lia.
  rewrite Nat2Z.id, drop_append. reflexivity.
Qed.

Lemma skip_leading_dots_all_dots stem pre rest :
  PosixPath.skip_leading_dots (pre +s+ stem +s+ rest)
    (Z.of_nat (String.length pre)) (String.length stem)
  = negb (all_dots stem).
Proof.
  revert pre. induction stem as [|a stem IH]; intros pre; [reflexivity|].
  cbn [PosixPath.skip_leading_dots String.length String.append all_dots].
  rewrite slice_one. unfold PosixPath.extsep. cbn [String.eqb].
  destruct (Ascii.eqb a ".") eqn:Ha; cbn [negb andb]; [|reflexivity].
  specialize (IH (pre +s+ String a EmptyString)).
  rewrite append_assoc, length_append in IH. cbn [String.append String.length] in IH.
  replace (Z.of_nat (String.length pre) + 1)%Z
    with (Z.of_nat (String.length pre + 1)) by lia.
  exact IH.
Qed.

Lemma splitext_no_dot p seg :
  final_segment p seg -> contains "." seg = false ->
  PosixPath.splitext p = (p, EmptyString).
Proof.
  intros Hseg Hdot.
  destruct (final_segment_split _ _ Hseg) as (pre & Hp & Hsep & Hle & _).
  unfold PosixPath.splitext, PosixPath.sep, PosixPath.extsep.
  rewrite Hsep. rewrite Hp at 1.
  rewrite rfind_append_absent by assumption.
  destruct (Z.ltb_spec (Z.of_nat (String.length pre) - 1) (rfind "." pre));
    [lia|reflexivity].
Qed.

Lemma splitext_dot p stem e :
  final_segment p (stem +s+ String "." e) -> contains "." e = false ->
  PosixPath.splitext p
  = if all_dots stem then (p, EmptyString)
    else (slice_to (rfind "." p) p, String "." e).
Proof.
  intros Hseg Hdot.
  destruct (final_segment_split _ _ Hseg) as (pre & Hp & Hsep & _).
  assert (Hrd : rfind "." p = Z.of_nat (String.length (pre +s+ stem))).
  { rewrite Hp, <- append_assoc. now apply rfind_last. }
  unfold PosixPath.splitext, PosixPath.sep, PosixPath.extsep.
  rewrite Hsep, Hrd, length_append.
  destruct (Z.ltb_spec (Z.of_nat (String.length pre) - 1)
              (Z.of_nat (String.length pre + String.length stem))); [|lia].
  replace (Z.of_nat (String.length pre) - 1 + 1)%Z
    with (Z.of_nat (String.length pre)) by lia.
  replace (Z.to_nat (Z.of_nat (String.length pre + String.length stem)
                     - Z.of_nat (String.length pre)))
    with (String.length stem) by lia.
  rewrite Hp at 1. rewrite skip_leading_dots_all_dots.
  destruct (all_dots stem); cbn [negb]; [reflexivity|].
  f_equal. unfold slice_from.
  rewrite Nat2Z.id, <- length_append, Hp, <- append_assoc.
  apply drop_append.
Qed.

End Splitext.

(** C7.  The extension in the record of an entry is the extension of the
    final segment of its path without its leading dot: nothing when the
    segment has no dot, and otherwise the text after the last dot of the
    segment, unless only dots precede that dot, in which case the segment
    has no extension and the field is empty. *)
Theorem extension_of_final_segment (binary_file : binary_file) (seg : string) :
  final_segment (path binary_file) seg ->
  nth_error (emitted (write_record binary_file)) 2
  = Some ("    " +s+ dq +s+ extension (path binary_file) +s+ dq +s+ "," +s+ nl)
  /\ (contains "." seg = false -> extension (path binary_file) = EmptyString)
  /\ (forall stem e,
        seg = stem +s+ String "." e -> contains "." e = false ->
        extension (path binary_file) = if all_dots stem then EmptyString else e).
Proof.
  intros Hseg. split; [reflexivity|]. split.
  - intros Hdot. unfold extension.
    now rewrite (splitext_no_dot _ _ Hseg Hdot).
  - intros stem e -> Hdot. unfold extension.
    rewrite (splitext_dot _ _ _ Hseg Hdot).
    now destruct (all_dots stem).
Qed.

(** The examples of the specification: [a/b/file.bin] has the extension
    [bin] and [a/b/NoExt] has none. *)
Lemma extension_of_final_segment_witness :
  extension (path (example_file "a/b/file.bin" [])) = "bin"
  /\ extension (path (example_file "a/b/NoExt" [])) = EmptyString.
Proof.
  split.
  - assert (H : final_segment "a/b/file.bin" "file.bin")
      by (now apply (final_after _ _ "a/b")).
    exact (proj2 (proj2 (extension_of_final_segment
                           (example_file "a/b/file.bin" []) _ H))
             "file" "bin" eq_refl eq_refl).
  - assert (H : final_segment "a/b/NoExt" "NoExt")
      by (now apply (final_after _ _ "a/b")).
    exact (proj1 (proj2 (extension_of_final_segment
                           (example_file "a/b/NoExt" []) _ H))
             eq_refl).
Defined.

(* ===================================================================== *)
(** * Emitting computations *)
(* ===================================================================== *)

Section EffFacts.

Context {W : Type}.

Lemma bind_ret_l {A B} (a : A) (k : A -> eff W B) : bind (ret a) k = k a.
Proof. unfold bind, ret; cbn. now destruct (k a). Qed.

Lemma bind_lift_ok {A B} (a : A) (k : A -> eff W B) : bind (lift (Ok a)) k = k a.
Proof. apply bind_ret_l. Qed.

Lemma bind_lift_raise {A B} (e : exn) (k : A -> eff W B) :
  bind (lift (Raise e)) k = ([], Raise e).
Proof. reflexivity. Qed.

Lemma bind_assoc {A B C} (m : eff W A) (k : A -> eff W B) (h : B -> eff W C) :
  bind (bind m k) h = bind m (fun a => bind (k a) h).
Proof.
  destruct m as [ws [a|e]]; unfold bind; cbn; [|reflexivity].
  destruct (k a) as [ws' [b|e]]; cbn; [|reflexivity].
  now rewrite app_assoc.
Qed.

Lemma bind_ok {A B} (m : eff W A) (k : A -> eff W B) a :
  outcome m = Ok a ->
  bind m k = (emitted m ++ emitted (k a), outcome (k a)).
Proof. unfold bind, outcome, emitted. now intros ->. Qed.

Lemma bind_raise {A B} (m : eff W A) (k : A -> eff W B) e :
  outcome m = Raise e -> bind m k = (emitted m, Raise e).
Proof. unfold bind, outcome, emitted. now intros ->. Qed.

(** What a sequence emitted starts with what its first part emitted. *)
Lemma bind_outcome_ok {A B} (m : eff W A) (k : A -> eff W B) b :
  outcome (bind m k) = Ok b ->
  exists a, outcome m = Ok a /\ outcome (k a) = Ok b.
Proof.
  destruct m as [ws [a|e]]; unfold bind, outcome; cbn; [|discriminate].
  intros H. now exists a.
Qed.

Lemma for_each_app {A} (l1 l2 : list A) (body : A -> eff W unit) :
  for_each (l1 ++ l2) body = (for_each l1 body ;; for_each l2 body).
Proof.
  induction l1 as [|x l1 IH]; cbn [for_each app].
  - now rewrite bind_ret_l.
  - now rewrite IH, bind_assoc.
Qed.

(** A loop whose body only emits, or does nothing, ends normally. *)
Lemma for_each_filter_emit {A} (keep : A -> bool) (make : A -> W) (l : list A) :
  for_each l (fun x => if keep x then emit (make x) else ret tt)
  = (map make (filter keep l), Ok tt).
Proof.
  induction l as [|x l IH]; cbn [for_each filter map]; [reflexivity|].
  rewrite IH. now destruct (keep x).
Qed.

Lemma for_each_emit (l : list W) : for_each l emit = (l, Ok tt).
Proof.
  induction l as [|x l IH]; cbn [for_each]; [reflexivity|].
  now rewrite IH.
Qed.

Lemma for_each_total {A} (body : A -> eff W unit) (chunks : A -> list W)
      (l : list A) :
  (forall x, In x l -> body x = (chunks x, Ok tt)) ->
  for_each l body = (flat_map chunks l, Ok tt).
Proof.
  induction l as [|x l IH]; cbn [for_each flat_map]; intros H; [reflexivity|].
  rewrite (H x (or_introl eq_refl)), IH by (intros; apply H; now right).
  reflexivity.
Qed.

(** When a loop ends normally, every turn of its body did. *)
Lemma for_each_ok_inv {A} (body : A -> eff W unit) (l : list A) :
  outcome (for_each l body) = Ok tt ->
  for_each l body = (flat_map (fun x => emitted (body x)) l, Ok tt)
  /\ forall x, In x l -> outcome (body x) = Ok tt.
Proof.
  induction l as [|x l IH]; cbn [for_each flat_map]; intros H.
  - split; [reflexivity|]. intros x [].
  - destruct (bind_outcome_ok _ _ _ H) as ([] & Hx & Hl).
    destruct (IH Hl) as [IHeq IHall].
    split.
    + rewrite (bind_ok _ _ tt Hx), IHeq. reflexivity.
    + intros y [<-|Hy]; auto.
Qed.

Lemma for_each_raise_at {A} (body : A -> eff W unit) (pre post : list A) x e :
  outcome (for_each pre body) = Ok tt ->
  outcome (body x) = Raise e ->
  for_each (pre ++ x :: post) body
  = (emitted (for_each pre body) ++ emitted (body x), Raise e).
Proof.
  intros Hpre Hx.
  rewrite for_each_app, (bind_ok _ _ tt Hpre). cbn [for_each].
  now rewrite (bind_raise _ _ e Hx).
Qed.

End EffFacts.

(* ===================================================================== *)
(** * Enumeration *)
(* ===================================================================== *)

Section Enumeration.

Context {RE : ReEngine}.
Variable fs : filesystem.

Lemma partition_none sep s :
  contains sep s = false -> partition sep s = None.
Proof.
  induction s as [|c s IH]; cbn; [reflexivity|].
  intros H. apply orb_false_iff in H as [Hc Hs].
  now rewrite Hc, IH.
Qed.

Lemma partition_first sep u v :
  contains sep u = false ->
  partition sep (u +s+ String sep v) = Some (u, v).
Proof.
  induction u as [|c u IH]; cbn [String.append partition contains].
  - now rewrite Ascii.eqb_refl.
  - intros H. apply orb_false_iff in H as [Hc Hu].
    now rewrite Hc, IH.
Qed.

Lemma split_no_sep sep n s : contains sep s = false -> split sep n s = [s].
Proof. intros H. destruct n; cbn; [reflexivity|]. now rewrite partition_none. Qed.

(** With one colon the argument splits in two, with two colons or more in
    three: the second part stops before the second colon. *)
Lemma split_one_colon entry source :
  contains ":" entry = false -> contains ":" source = false ->
  split ":" 2 (entry +s+ String ":" source) = [entry; source].
Proof.
  intros He Hs. cbn [split].
  now rewrite (partition_first _ _ _ He), (partition_none _ _ Hs).
Qed.

Lemma split_two_colons entry source tail :
  contains ":" entry = false -> contains ":" source = false ->
  split ":" 2 (entry +s+ String ":" (source +s+ String ":" tail))
  = [entry; source; tail].
Proof.
  intros He Hs. cbn [split].
  now rewrite (partition_first _ _ _ He), (partition_first _ _ _ Hs).
Qed.

(** One input, case by case: what it yields and how it ends. *)
Lemma enumerate_input_eq current_input :
  enumerate_input fs current_input =
  match split ":" 2 current_input with
  | entry :: source :: _ =>
      match re_compile source with
      | Raise e => ([], Raise e)
      | Ok pattern =>
          if isdir fs entry then (dir_entries fs pattern entry, Ok tt)
          else match ZipFile fs entry with
               | Raise e => ([], Raise e)
               | Ok jar => (jar_entries pattern jar, Ok tt)
               end
      end
  | _ => ([], Raise IndexError)
  end.
Proof.
  unfold enumerate_input.
  destruct (split ":" 2 current_input) as [|entry [|source rest]];
    [reflexivity|reflexivity|].
  cbn [getitem nth_error]. rewrite !bind_lift_ok.
  destruct (re_compile source) as [pattern|e]; [|reflexivity].
  rewrite bind_lift_ok.
  destruct (isdir fs entry).
  - unfold dir_entries. apply for_each_total.
    intros [[root dirs] files] _.
    exact (for_each_filter_emit
             (fun file_name => Pattern_match pattern (relpath root file_name))
             (fun file_name =>
                {| path := relpath root file_name;
                   open := fun _ => open_rb fs entry root file_name |})
             files).
  - destruct (ZipFile fs entry) as [jar|e]; [|reflexivity].
    rewrite bind_lift_ok. unfold jar_entries.
    exact (for_each_filter_emit (Pattern_match pattern)
             (fun name => {| path := name; open := fun _ => jar_open jar name |})
             (namelist jar)).
Qed.

Lemma filter_flat_map {A B} (keep : B -> bool) (f : A -> list B) (l : list A) :
  filter keep (flat_map f l) = flat_map (fun x => filter keep (f x)) l.
Proof.
  induction l as [|x l IH]; cbn; [reflexivity|].
  now rewrite filter_app, IH.
Qed.

Lemma filter_map_comm {A B} (keep : B -> bool) (f : A -> B) (l : list A) :
  filter keep (map f l) = map f (filter (fun x => keep (f x)) l).
Proof.
  induction l as [|x l IH]; cbn; [reflexivity|].
  destruct (keep (f x)); cbn; now rewrite IH.
Qed.

Lemma map_flat_map {A B C} (g : B -> C) (f : A -> list B) (l : list A) :
  map g (flat_map f l) = flat_map (fun x => map g (f x)) l.
Proof.
  induction l as [|x l IH]; cbn; [reflexivity|].
  now rewrite map_app, IH.
Qed.

(** The paths that one input yields are the candidates of its source that
    its pattern matches, each once for each time it is a candidate. *)
Lemma enumerate_input_paths current_input :
  map path (emitted (enumerate_input fs current_input))
  = matched_paths fs current_input.
Proof.
  rewrite enumerate_input_eq. unfold matched_paths, candidates.
  destruct (split ":" 2 current_input) as [|entry [|source rest]];
    [reflexivity|reflexivity|].
  destruct (re_compile source) as [pattern|e]; [|reflexivity].
  destruct (isdir fs entry).
  - cbn [emitted fst]. unfold dir_entries.
    rewrite map_flat_map, filter_flat_map.
    apply flat_map_ext. intros [[root dirs] files].
    now rewrite map_map, filter_map_comm.
  - destruct (ZipFile fs entry) as [jar|e]; [|reflexivity].
    cbn [emitted fst]. unfold jar_entries.
    rewrite map_map. cbn [path]. now rewrite map_id.
Qed.

Lemma EnumerateInputs_app inputs1 inputs2 :
  EnumerateInputs fs (inputs1 ++ inputs2)
  = (EnumerateInputs fs inputs1 ;; EnumerateInputs fs inputs2).
Proof. apply for_each_app. Qed.

(** When the generator ends normally it has yielded, source after source,
    the matched paths of every source. *)
Lemma EnumerateInputs_paths inputs :
  outcome (EnumerateInputs fs inputs) = Ok tt ->
  map path (emitted (EnumerateInputs fs inputs))
  = flat_map (matched_paths fs) inputs.
Proof.
  unfold EnumerateInputs. intros H.
  destruct (for_each_ok_inv _ _ H) as [-> _].
  cbn [emitted fst]. rewrite map_flat_map.
  apply flat_map_ext. intros s. apply enumerate_input_paths.
Qed.

End Enumeration.

(* ===================================================================== *)
(** * The engine of the fragment matches at position 0 *)
(* ===================================================================== *)

Section MiniReFacts.

Import MiniRe.

Lemma start_of_append before u :
  start_of (before +s+ u) = start_of before && start_of u.
Proof. now destruct before. Qed.

Lemma append_empty_inv u v :
  u +s+ v = EmptyString -> u = EmptyString /\ v = EmptyString.
Proof. destruct u; cbn; [auto|discriminate]. Qed.

Lemma Matches_empty_nullable r before u after :
  Matches r before u after -> u = EmptyString ->
  nullable (start_of before) after r = true.
Proof.
  induction 1 as [ | | | | before after [-> | ->]
                 | r1 r2 before u v after _ IH1 _ IH2
                 | r1 r2 before u after _ IH | r1 r2 before u after _ IH
                 | | ]; intros Hu; cbn [nullable]; try reflexivity;
    try discriminate.
  - apply append_empty_inv in Hu as [-> ->].
    rewrite append_nil_r in IH2. cbn [String.append] in IH1.
    now rewrite IH1, IH2.
  - now rewrite IH.
  - rewrite IH by assumption. apply orb_true_r.
Qed.

Lemma nullable_Matches_empty r before after :
  nullable (start_of before) after r = true ->
  Matches r before EmptyString after.
Proof.
  induction r as [ | | c | | | | r1 IH1 r2 IH2 | r1 IH1 r2 IH2 | r IH];
    cbn [nullable]; intros H; try discriminate.
  - constructor.
  - destruct before; [constructor|discriminate].
  - constructor. apply orb_true_iff in H as [H|H];
      apply String.eqb_eq in H; auto.
  - apply andb_true_iff in H as [H1 H2].
    change EmptyString with (EmptyString +s+ EmptyString).
    constructor; [now apply IH1|].
    rewrite append_nil_r. now apply IH2.
  - apply orb_true_iff in H as [H|H]; [apply MAltL|apply MAltR]; auto.
  - constructor.
Qed.

Lemma one_char_append before c u :
  (before +s+ String c EmptyString) +s+ u = before +s+ String c u.
Proof. now rewrite append_assoc. Qed.

(** What is left after a character matches what follows the character. *)
Lemma deriv_Matches r before c :
  forall u after,
    Matches (deriv (start_of before) (String c (u +s+ after)) c r)
            (before +s+ String c EmptyString) u after ->
    Matches r before (String c u) after.
Proof.
  induction r as [ | | x | | | | r1 IH1 r2 IH2 | r1 IH1 r2 IH2 | r IH];
    cbn [deriv]; intros u after H.
  - inversion H.
  - inversion H.
  - destruct (Ascii.eqb_spec x c) as [->|]; inversion H; subst. constructor.
  - destruct (Ascii.eqb_spec c LF) as [|Hc]; inversion H; subst.
    now constructor.
  - inversion H.
  - inversion H.
  - assert (Hcat : forall w,
              Matches (Cat (deriv (start_of before) (String c (w +s+ after)) c r1) r2)
                      (before +s+ String c EmptyString) w after ->
              Matches (Cat r1 r2) before (String c w) after).
    { intros w Hw. inversion Hw as [ | | | | | ? ? ? u1 u2 ? H1 H2 | | | | ]; subst.
      rewrite append_assoc in H1. apply IH1 in H1.
      rewrite one_char_append in H2.
      change (String c (u1 +s+ u2)) with (String c u1 +s+ u2).
      now constructor. }
    destruct (nullable (start_of before) (String c (u +s+ after)) r1) eqn:Hn.
    + inversion H as [ | | | | | | ? ? ? ? ? H1 | ? ? ? ? ? H2 | | ]; subst.
      * now apply Hcat.
      * apply IH2 in H2. apply nullable_Matches_empty in Hn.
        change (String c u) with (EmptyString +s+ String c u).
        constructor; [exact Hn|]. now rewrite append_nil_r.
    + now apply Hcat.
  - inversion H; subst; [apply MAltL|apply MAltR]; auto.
  - inversion H as [ | | | | | ? ? ? u1 u2 ? H1 H2 | | | | ]; subst.
    rewrite append_assoc in H1. apply IH in H1.
    rewrite one_char_append in H2.
    change (String c (u1 +s+ u2)) with (String c u1 +s+ u2).
    now constructor.
Qed.

Lemma Matches_deriv r before w after :
  Matches r before w after ->
  forall c u, w = String c u ->
    Matches (deriv (start_of before) (String c (u +s+ after)) c r)
            (before +s+ String c EmptyString) u after.
Proof.
  induction 1 as [ | x before after | x before after Hx | |
                 | r1 r2 before u1 v after H1 IH1 H2 IH2
                 | r1 r2 before w after _ IH | r1 r2 before w after _ IH
                 | | r before u1 v after H1 IH1 H2 IH2 ];
    intros c u Hw; cbn [deriv]; try discriminate.
  - injection Hw as -> <-. rewrite Ascii.eqb_refl. constructor.
  - injection Hw as -> <-.
    destruct (Ascii.eqb_spec c LF); [contradiction|constructor].
  - destruct u1 as [|c1 u1]; cbn [String.append] in Hw.
    + subst v. cbn [String.append] in H1.
      rewrite (Matches_empty_nullable _ _ _ _ H1 eq_refl).
      apply MAltR. rewrite append_nil_r in IH2. now apply IH2.
    + injection Hw as -> <-.
      specialize (IH1 c u1 eq_refl). rewrite <- append_assoc in IH1.
      rewrite <- one_char_append in H2.
      assert (Hcat : Matches
                (Cat (deriv (start_of before) (String c ((u1 +s+ v) +s+ after)) c r1) r2)
                (before +s+ String c EmptyString) (u1 +s+ v) after)
        by now constructor.
      destruct (nullable _ _ r1); [now apply MAltL|exact Hcat].
  - apply MAltL. now apply IH.
  - apply MAltR. now apply IH.
  - destruct u1 as [|c1 u1]; cbn [String.append] in Hw.
    + subst v. rewrite append_nil_r in IH2. now apply IH2.
    + injection Hw as -> <-.
      specialize (IH1 c u1 eq_refl). rewrite <- append_assoc in IH1.
      rewrite <- one_char_append in H2.
      now constructor.
Qed.

(** The matcher accepts a subject exactly when the pattern matches one of
    its prefixes. *)
Lemma match_prefix_iff s :
  forall r before,
    match_prefix (start_of before) s r = true
    <-> exists u v, s = u +s+ v /\ Matches r before u v.
Proof.
  induction s as [|c s IH]; intros r before; cbn [match_prefix].
  - rewrite orb_false_r. split.
    + intros H. exists EmptyString, EmptyString. split; [reflexivity|].
      now apply nullable_Matches_empty.
    + intros (u & v & Huv & H). symmetry in Huv.
      apply append_empty_inv in Huv as [-> ->].
      now apply (Matches_empty_nullable _ _ _ _ H).
  - split.
    + intros H. apply orb_true_iff in H as [H|H].
      * exists EmptyString, (String c s). split; [reflexivity|].
        now apply nullable_Matches_empty.
      * replace false with (start_of (before +s+ String c EmptyString)) in H
          by (now destruct before).
        apply IH in H as (u & v & -> & H).
        exists (String c u), v. split; [reflexivity|].
        now apply deriv_Matches.
    + intros (u & v & Huv & H). apply orb_true_iff.
      destruct u as [|c' u]; cbn [String.append] in Huv.
      * left. subst v. now apply (Matches_empty_nullable _ _ _ _ H).
      * right. injection Huv as <- ->.
        replace false with (start_of (before +s+ String c EmptyString))
          by (now destruct before).
        apply IH. exists u, v. split; [reflexivity|].
        now apply (Matches_deriv _ _ _ _ H).
Qed.

(** [pattern.match(s)] is a match at position 0 of [s]. *)
Lemma match_iff_matches_at_0 r s : match_ r s = true <-> matches_at_0 r s.
Proof. exact (match_prefix_iff s r EmptyString). Qed.

End MiniReFacts.

(* ===================================================================== *)
(** * Arguments, patterns and sources that fail *)
(* ===================================================================== *)

Section Failures.

Context {RE : ReEngine}.
Variable fs : filesystem.

Lemma Generate_raise cc_file_path inputs e :
  outcome (EnumerateInputs fs inputs) = Raise e ->
  Generate fs cc_file_path inputs = ([], Raise e).
Proof.
  intros H. unfold Generate, sorted_inputs. now rewrite H.
Qed.

Lemma EnumerateInputs_raise_at pre post spec ys e :
  outcome (EnumerateInputs fs pre) = Ok tt ->
  enumerate_input fs spec = (ys, Raise e) ->
  EnumerateInputs fs (pre ++ spec :: post)
  = (emitted (EnumerateInputs fs pre) ++ ys, Raise e).
Proof.
  intros Hpre Hspec. unfold EnumerateInputs.
  rewrite (for_each_raise_at _ pre post spec e Hpre); now rewrite Hspec.
Qed.

Lemma main_generates prog cc_file_path inputs :
  inputs <> [] -> is_help_flag cc_file_path = false ->
  main fs (prog :: cc_file_path :: inputs)
  = Generated (Generate fs cc_file_path inputs).
Proof.
  intros Hne Hflag. unfold main. cbn [nth skipn].
  fold (is_help_flag cc_file_path). rewrite Hflag.
  destruct inputs; [congruence|reflexivity].
Qed.

(** C10.  An argument without a colon makes the enumeration fail with
    [IndexError], raised by [components[1]] when the enumeration reaches
    the argument: nothing of it is enumerated, what the arguments before
    it yielded is lost with the exception, and [main], which checks only
    the number of arguments and the help flags, lets the exception out of
    [Generate] with nothing written. *)
Theorem missing_colon_IndexError
        (prog cc_file_path spec : string) (pre post : list string) :
  contains ":" spec = false ->
  is_help_flag cc_file_path = false ->
  outcome (EnumerateInputs fs pre) = Ok tt ->
  enumerate_input fs spec = ([], Raise IndexError)
  /\ EnumerateInputs fs (pre ++ spec :: post)
     = (emitted (EnumerateInputs fs pre), Raise IndexError)
  /\ main fs (prog :: cc_file_path :: pre ++ spec :: post)
     = Generated ([], Raise IndexError).
Proof.
  intros Hcolon Hflag Hpre.
  assert (Hspec : enumerate_input fs spec = ([], Raise IndexError)).
  { rewrite enumerate_input_eq, split_no_sep by assumption. reflexivity. }
  assert (Hall : EnumerateInputs fs (pre ++ spec :: post)
                 = (emitted (EnumerateInputs fs pre), Raise IndexError)).
  { rewrite (EnumerateInputs_raise_at pre post spec [] IndexError Hpre Hspec).
    now rewrite app_nil_r. }
  repeat split; [assumption|assumption|].
  rewrite main_generates by (assumption || now destruct pre).
  f_equal. apply Generate_raise. now rewrite Hall.
Qed.

(** C8, as the code has it.  The pattern of an argument is compiled when
    the enumeration reaches that argument.  When the arguments before it
    were enumerated without an error and its pattern does not compile, the
    run fails with the error of [re.compile] before any entry of that
    argument or of a later one is enumerated; the entries of the earlier
    arguments were enumerated by then, and nothing is written. *)
Theorem invalid_pattern_raises_when_reached
        (cc_file_path spec entry source : string) (rest pre post : list string)
        (e : exn) :
  split ":" 2 spec = entry :: source :: rest ->
  re_compile source = Raise e ->
  outcome (EnumerateInputs fs pre) = Ok tt ->
  enumerate_input fs spec = ([], Raise e)
  /\ EnumerateInputs fs (pre ++ spec :: post)
     = (emitted (EnumerateInputs fs pre), Raise e)
  /\ Generate fs cc_file_path (pre ++ spec :: post) = ([], Raise e).
Proof.
  intros Hsplit Hre Hpre.
  assert (Hspec : enumerate_input fs spec = ([], Raise e)).
  { now rewrite enumerate_input_eq, Hsplit, Hre. }
  assert (Hall : EnumerateInputs fs (pre ++ spec :: post)
                 = (emitted (EnumerateInputs fs pre), Raise e)).
  { rewrite (EnumerateInputs_raise_at pre post spec [] e Hpre Hspec).
    now rewrite app_nil_r. }
  repeat split; [assumption|assumption|].
  apply Generate_raise. now rewrite Hall.
Qed.

(** C9, as the code has it.  For an argument that the enumeration
    reaches and whose pattern compiles: a location that does not exist
    raises [FileNotFoundError], from the attempt to open it as an archive;
    a file that may not be read raises [PermissionError]; a readable file
    that is not an archive raises [BadZipFile]; a directory that may not
    be listed raises nothing and yields nothing. *)
Theorem source_failures
        (spec entry source : string) (rest pre post : list string)
        (pattern : Pattern) :
  split ":" 2 spec = entry :: source :: rest ->
  re_compile source = Ok pattern ->
  outcome (EnumerateInputs fs pre) = Ok tt ->
  match fs entry with
  | None =>
      outcome (EnumerateInputs fs (pre ++ spec :: post)) = Raise FileNotFoundError
  | Some (File false _ _) =>
      outcome (EnumerateInputs fs (pre ++ spec :: post)) = Raise PermissionError
  | Some (File true _ None) =>
      outcome (EnumerateInputs fs (pre ++ spec :: post)) = Raise BadZipFile
  | Some (Dir false _) =>
      enumerate_input fs spec = ([], Ok tt)
  | Some (File true _ (Some _)) | Some (Dir true _) =>
      outcome (enumerate_input fs spec) = Ok tt
  end.
Proof.
  intros Hsplit Hre Hpre.
  pose proof (enumerate_input_eq fs spec) as Heq.
  rewrite Hsplit, Hre in Heq. unfold isdir, ZipFile in Heq.
  assert (Hraise : forall e, enumerate_input fs spec = ([], Raise e) ->
            outcome (EnumerateInputs fs (pre ++ spec :: post)) = Raise e).
  { intros e He.
    now rewrite (EnumerateInputs_raise_at pre post spec [] e Hpre He). }
  destruct (fs entry) as [[[|] content [members|] | [|] children]|] eqn:Hfs;
    cbn [is_dir] in Heq.
  - now rewrite Heq.
  - now apply Hraise.
  - now apply Hraise.
  - now apply Hraise.
  - now rewrite Heq.
  - rewrite Heq. unfold dir_entries, walk. now rewrite Hfs.
  - now apply Hraise.
Qed.

(** C3.  The paths that an argument yields are the candidates of its
    source that its pattern matches, in order and as often as they are
    candidates: an entry is included exactly when [pattern.match] accepts
    its path.  For the engine of the fragment, [pattern.match] accepts a
    path exactly when the pattern matches at position 0 of it, that is when
    it matches a prefix of the path, whatever follows the prefix. *)
Theorem included_iff_pattern_matches
        (spec entry source : string) (rest : list string) (pattern : Pattern) :
  split ":" 2 spec = entry :: source :: rest ->
  re_compile source = Ok pattern ->
  map path (emitted (enumerate_input fs spec))
  = filter (Pattern_match pattern) (candidates fs entry)
  /\ (forall relative_path,
        In relative_path (map path (emitted (enumerate_input fs spec)))
        <-> In relative_path (candidates fs entry)
            /\ Pattern_match pattern relative_path = true)
  /\ (forall (r : MiniRe.regex) (s : string),
        Pattern_match (ReEngine := MiniRe.engine) r s = true
        <-> MiniRe.matches_at_0 r s).
Proof.
  intros Hsplit Hre.
  assert (H : map path (emitted (enumerate_input fs spec))
              = filter (Pattern_match pattern) (candidates fs entry)).
  { rewrite enumerate_input_paths. unfold matched_paths.
    now rewrite Hsplit, Hre. }
  split; [exact H|]. split.
  - intros relative_path. rewrite H. apply filter_In.
  - exact match_iff_matches_at_0.
Qed.

End Failures.

(* ===================================================================== *)
(** * The failures on examples *)
(* ===================================================================== *)

Lemma missing_colon_IndexError_witness :
  contains ":" "/tmp/file.jar" = false
  /\ main (RE := MiniRe.engine) example_fs
       ["static_def_gen.py"; "out.inl"; "/tmp/in:^a"; "/tmp/file.jar"]
     = Generated ([], Raise IndexError).
Proof.
  split; [reflexivity|].
  apply (missing_colon_IndexError (RE := MiniRe.engine) example_fs
           "static_def_gen.py" "out.inl" "/tmp/file.jar" ["/tmp/in:^a"] []);
    vm_compute; reflexivity.
Defined.

(** The second argument has the pattern that does not compile, and the two
    files of the first argument are enumerated before the failure. *)
Lemma entries_enumerated_before_invalid_pattern :
  map path (emitted (EnumerateInputs (RE := MiniRe.engine) example_fs
                       ["/tmp/in:^a"; "/tmp/in:("]))
  = ["a/b/One.class"; "a/b/file.txt"]
  /\ outcome (EnumerateInputs (RE := MiniRe.engine) example_fs
                ["/tmp/in:^a"; "/tmp/in:("])
     = Raise re_error
  /\ ~ fails_before_any_enumeration (RE := MiniRe.engine) example_fs
         ["/tmp/in:^a"; "/tmp/in:("].
Proof.
  split; [vm_compute; reflexivity|]. split; [vm_compute; reflexivity|].
  intros H.
  destruct H as [e He].
  - exists "/tmp/in:(", "/tmp/in", "(", [], re_error.
    split; [right; now left|]. split; vm_compute; reflexivity.
  - apply (f_equal (fun m => List.length (emitted m))) in He.
    vm_compute in He. discriminate He.
Qed.

Lemma invalid_pattern_raises_when_reached_witness :
  re_compile (ReEngine := MiniRe.engine) "(" = Raise re_error
  /\ EnumerateInputs (RE := MiniRe.engine) example_fs
       ["/tmp/in:^a"; "/tmp/in:("; "/tmp/file.jar:a"]
     = (emitted (EnumerateInputs (RE := MiniRe.engine) example_fs ["/tmp/in:^a"]),
        Raise re_error)
  /\ Generate (RE := MiniRe.engine) example_fs "out.inl"
       ["/tmp/in:("; "/tmp/file.jar:a"]
     = ([], Raise re_error).
Proof.
  split; [reflexivity|]. split.
  - apply (invalid_pattern_raises_when_reached (RE := MiniRe.engine) example_fs
             "out.inl" "/tmp/in:(" "/tmp/in" "(" [] ["/tmp/in:^a"]
             ["/tmp/file.jar:a"] re_error);
      vm_compute; reflexivity.
  - apply (invalid_pattern_raises_when_reached (RE := MiniRe.engine) example_fs
             "out.inl" "/tmp/in:(" "/tmp/in" "(" [] []
             ["/tmp/file.jar:a"] re_error);
      vm_compute; reflexivity.
Defined.

(** [/tmp/locked] is a directory that may not be listed: its enumeration
    raises nothing and yields nothing. *)
Lemma unlistable_directory_raises_nothing :
  missing_or_unlistable example_fs "/tmp/locked"
  /\ EnumerateInputs (RE := MiniRe.engine) example_fs ["/tmp/locked:^One"]
     = ([], Ok tt)
  /\ ~ bad_directory_raises_OSError (RE := MiniRe.engine) example_fs
         "/tmp/locked:^One".
Proof.
  assert (Hdir : missing_or_unlistable example_fs "/tmp/locked").
  { right. eexists. vm_compute. reflexivity. }
  split; [exact Hdir|]. split; [vm_compute; reflexivity|].
  intros H.
  destruct (H "/tmp/locked" "^One" []
              (MiniRe.Cat MiniRe.Bol
                 (MiniRe.Cat (MiniRe.Chr "O")
                    (MiniRe.Cat (MiniRe.Chr "n")
                       (MiniRe.Cat (MiniRe.Chr "e") MiniRe.Eps)))))
    as (e & He & _); [reflexivity|reflexivity|exact Hdir|].
  vm_compute in He. discriminate He.
Qed.

Lemma source_failures_witness :
  outcome (EnumerateInputs (RE := MiniRe.engine) example_fs
             ["/tmp/in:^a"; "/tmp/missing:^a"; "/tmp/file.jar:a"])
  = Raise FileNotFoundError
  /\ outcome (EnumerateInputs (RE := MiniRe.engine) example_fs
                ["/tmp/notes.txt:^a"])
     = Raise BadZipFile
  /\ enumerate_input (RE := MiniRe.engine) example_fs "/tmp/locked:^One"
     = ([], Ok tt).
Proof.
  split; [|split].
  - apply (source_failures (RE := MiniRe.engine) example_fs
             "/tmp/missing:^a" "/tmp/missing" "^a" [] ["/tmp/in:^a"]
             ["/tmp/file.jar:a"]
             (MiniRe.Cat MiniRe.Bol (MiniRe.Cat (MiniRe.Chr "a") MiniRe.Eps)));
      vm_compute; reflexivity.
  - apply (source_failures (RE := MiniRe.engine) example_fs
             "/tmp/notes.txt:^a" "/tmp/notes.txt" "^a" [] [] []
             (MiniRe.Cat MiniRe.Bol (MiniRe.Cat (MiniRe.Chr "a") MiniRe.Eps)));
      vm_compute; reflexivity.
  - apply (source_failures (RE := MiniRe.engine) example_fs
             "/tmp/locked:^One" "/tmp/locked" "^One" [] [] []
             (MiniRe.Cat MiniRe.Bol
                (MiniRe.Cat (MiniRe.Chr "O")
                   (MiniRe.Cat (MiniRe.Chr "n")
                      (MiniRe.Cat (MiniRe.Chr "e") MiniRe.Eps)))));
      vm_compute; reflexivity.
Defined.

(** The pattern [^a/b] keeps [a/b/c.txt], where text follows the match,
    and drops [x/a/b], where the match would not start at position 0. *)
Lemma included_iff_pattern_matches_witness :
  candidates example_fs "/tmp/file.jar" = ["a/b/c.txt"; "x/a/b"; "ax"]
  /\ re_compile (ReEngine := MiniRe.engine) "^a/b" = Ok example_pattern
  /\ map path (emitted (enumerate_input (RE := MiniRe.engine) example_fs
                          "/tmp/file.jar:^a/b"))
     = ["a/b/c.txt"]
  /\ MiniRe.matches_at_0 example_pattern "a/b/c.txt"
  /\ ~ MiniRe.matches_at_0 example_pattern "x/a/b".
Proof.
  destruct (included_iff_pattern_matches (RE := MiniRe.engine) example_fs
              "/tmp/file.jar:^a/b" "/tmp/file.jar" "^a/b" [] example_pattern
              eq_refl eq_refl)
    as (Hpaths & _ & Hsem).
  split; [reflexivity|]. split; [reflexivity|]. split; [|split].
  - rewrite Hpaths. reflexivity.
  - apply Hsem. reflexivity.
  - intros H. apply Hsem in H. discriminate H.
Defined.

(** C4.  The split is capped at two splits, not at two parts: with a
    second colon in the argument the pattern stops before it.  The argument
    [/tmp/file.jar:^a:b] is enumerated with the pattern [^a], which keeps
    two members of the archive, where the pattern [^a:b] keeps none. *)
Theorem pattern_cut_at_second_colon :
  split ":" 2 "/tmp/file.jar:^a:b" = ["/tmp/file.jar"; "^a"; "b"]
  /\ getitem (split ":" 2 "/tmp/file.jar:^a:b") 1 = Ok "^a"
  /\ map path (emitted (EnumerateInputs (RE := MiniRe.engine) example_fs
                          ["/tmp/file.jar:^a:b"]))
     = ["a/b/c.txt"; "ax"]
  /\ (exists pattern,
        re_compile (ReEngine := MiniRe.engine) "^a:b" = Ok pattern
        /\ filter (Pattern_match pattern) (candidates example_fs "/tmp/file.jar")
           = [])
  /\ ~ pattern_is_text_after_first_colon "/tmp/file.jar:^a:b".
Proof.
  split; [reflexivity|]. split; [reflexivity|]. split; [vm_compute; reflexivity|].
  split.
  - eexists. split; [reflexivity|]. vm_compute. reflexivity.
  - intros H. specialize (H "/tmp/file.jar" "^a:b" eq_refl).
    vm_compute in H. discriminate H.
Qed.

(* ===================================================================== *)
(** * Sorting *)
(* ===================================================================== *)

Section StringOrder.

Lemma compare_refl s : String.compare s s = Eq.
Proof.
  induction s as [|c s IH]; cbn; [reflexivity|].
  unfold Ascii.compare. now rewrite N.compare_refl.
Qed.

Lemma compare_lt_trans a b c :
  String.compare a b = Lt -> String.compare b c = Lt -> String.compare a c = Lt.
Proof.
  revert b c. induction a as [|x a IH]; intros [|y b] [|z c]; cbn;
    try discriminate; try reflexivity.
  unfold Ascii.compare.
  destruct (N.compare_spec (N_of_ascii x) (N_of_ascii y)) as [Hxy|Hxy|Hxy];
    destruct (N.compare_spec (N_of_ascii y) (N_of_ascii z)) as [Hyz|Hyz|Hyz];
    try discriminate; intros Hab Hbc.
  - rewrite Hxy, Hyz, N.compare_refl. eauto.
  - now rewrite (proj2 (N.compare_lt_iff (N_of_ascii x) (N_of_ascii z)) ltac:(lia)).
  - now rewrite (proj2 (N.compare_lt_iff (N_of_ascii x) (N_of_ascii z)) ltac:(lia)).
  - now rewrite (proj2 (N.compare_lt_iff (N_of_ascii x) (N_of_ascii z)) ltac:(lia)).
Qed.

Lemma ltb_irrefl a : String.ltb a a = false.
Proof. unfold String.ltb. now rewrite compare_refl. Qed.

Lemma ltb_leb a b : String.ltb a b = true -> path_le a b.
Proof.
  unfold String.ltb, path_le, String.leb.
  now destruct (String.compare a b).
Qed.

Lemma not_ltb_leb a b : String.ltb b a = false -> path_le a b.
Proof.
  unfold String.ltb, path_le, String.leb.
  rewrite (String.compare_antisym b a).
  now destruct (String.compare a b).
Qed.

Lemma path_le_cases a b : path_le a b -> a = b \/ path_lt a b.
Proof.
  unfold path_le, path_lt, String.leb, String.ltb.
  destruct (String.compare a b) eqn:H; try discriminate.
  - left. now apply String.compare_eq_iff.
  - now right.
Qed.

Lemma path_lt_le a b : path_lt a b -> path_le a b.
Proof. apply ltb_leb. Qed.

Lemma path_lt_trans a b c : path_lt a b -> path_lt b c -> path_lt a c.
Proof.
  unfold path_lt, String.ltb.
  destruct (String.compare a b) eqn:Hab; try discriminate.
  destruct (String.compare b c) eqn:Hbc; try discriminate.
  now rewrite (compare_lt_trans _ _ _ Hab Hbc).
Qed.

Lemma path_le_trans a b c : path_le a b -> path_le b c -> path_le a c.
Proof.
  intros Hab Hbc.
  destruct (path_le_cases _ _ Hab) as [->|Hlt]; [assumption|].
  destruct (path_le_cases _ _ Hbc) as [<-|Hlt']; [assumption|].
  apply path_lt_le. eapply path_lt_trans; eassumption.
Qed.

Lemma path_lt_irrefl a : ~ path_lt a a.
Proof. unfold path_lt. now rewrite ltb_irrefl. Qed.

End StringOrder.

Section SortedFacts.

Context {A : Type} (key : A -> string).

Lemma insert_perm x l : Permutation (insert key x l) (x :: l).
Proof.
  induction l as [|y l IH]; cbn; [reflexivity|].
  destruct (String.ltb (key y) (key x)); [|reflexivity].
  rewrite IH. apply perm_swap.
Qed.

Lemma sorted_perm l : Permutation (sorted key l) l.
Proof.
  induction l as [|x l IH]; cbn; [reflexivity|].
  rewrite insert_perm. now constructor.
Qed.

Lemma sorted_length l : List.length (sorted key l) = List.length l.
Proof. apply Permutation_length, sorted_perm. Qed.

Lemma insert_sorted x l :
  StronglySorted path_le (map key l) ->
  StronglySorted path_le (map key (insert key x l)).
Proof.
  induction l as [|y l IH]; cbn [insert map]; intros Hs.
  - repeat constructor.
  - inversion Hs as [|? ? Hl Hall]; subst.
    destruct (String.ltb (key y) (key x)) eqn:Hyx; cbn [map].
    + constructor; [now apply IH|].
      assert (Hp : Permutation (map key (insert key x l)) (key x :: map key l))
        by (apply (Permutation_map key (insert_perm x l))).
      eapply Permutation_Forall; [symmetry; exact Hp|].
      constructor; [now apply ltb_leb|assumption].
    + assert (Hxy : path_le (key x) (key y)) by now apply not_ltb_leb.
      constructor; [assumption|].
      constructor; [assumption|].
      eapply Forall_impl; [|exact Hall].
      intros z Hz. eapply path_le_trans; eassumption.
Qed.

(** The result of [sorted] is in ascending order of key. *)
Lemma sorted_ascending l : StronglySorted path_le (map key (sorted key l)).
Proof.
  induction l as [|x l IH]; cbn [sorted fold_right].
  - constructor.
  - now apply insert_sorted.
Qed.

(** [sorted] is stable: the elements of one key keep their order. *)
Lemma insert_stable k x l :
  filter (fun y => String.eqb (key y) k) (insert key x l)
  = filter (fun y => String.eqb (key y) k) (x :: l).
Proof.
  induction l as [|y l IH]; cbn [insert]; [reflexivity|].
  destruct (String.ltb (key y) (key x)) eqn:Hyx; [|reflexivity].
  cbn [filter] in *. rewrite IH.
  destruct (String.eqb_spec (key x) k) as [Hx|Hx]; [|reflexivity].
  destruct (String.eqb_spec (key y) k) as [Hy|Hy]; [|reflexivity].
  rewrite Hx, Hy, ltb_irrefl in Hyx. discriminate.
Qed.

Lemma sorted_stable k l :
  filter (fun y => String.eqb (key y) k) (sorted key l)
  = filter (fun y => String.eqb (key y) k) l.
Proof.
  induction l as [|x l IH]; cbn [sorted fold_right]; [reflexivity|].
  rewrite insert_stable. cbn [filter]. fold (sorted key l). now rewrite IH.
Qed.

End SortedFacts.

Lemma ascending_distinct_strict (l : list string) :
  StronglySorted path_le l -> NoDup l -> StronglySorted path_lt l.
Proof.
  induction 1 as [|a l Hs IH Hall]; intros Hnd; [constructor|].
  inversion Hnd as [|? ? Hnotin Hnd']; subst.
  constructor; [now apply IH|].
  apply Forall_forall. intros b Hb.
  rewrite Forall_forall in Hall.
  destruct (path_le_cases _ _ (Hall b Hb)) as [->|Hlt]; [contradiction|assumption].
Qed.

(* ===================================================================== *)
(** * What Generate writes *)
(* ===================================================================== *)

Section Writes.

Lemma read_loop_all (f : list byte) :
  read_loop (fst (read 1 f)) (snd (read 1 f)) = map element f.
Proof.
  induction f as [|b f IH]; cbn [read firstn skipn fst snd map].
  - now simp read_loop.
  - simp read_loop. now rewrite IH.
Qed.

(** The definition of a file whose stream opens: its array, with every
    byte of the stream, and its path. *)
Lemma write_definition_ok (binary_file : binary_file) (f : list byte) :
  open binary_file tt = Ok f ->
  write_definition binary_file
  = (array_chunks (_GetName binary_file) f
       ++ [path_chunk (_GetName binary_file) (path binary_file)],
     Ok tt).
Proof.
  intros Hopen. unfold write_definition, array_chunks.
  cbv zeta. rewrite Hopen.
  unfold bind at 1 2. cbn [emit lift fst snd app].
  rewrite read_loop_all, for_each_emit.
  unfold bind; cbn [emit fst snd app].
  now rewrite <- app_assoc.
Qed.

Lemma write_definition_ok_inv (binary_file : binary_file) :
  outcome (write_definition binary_file) = Ok tt ->
  exists f, open binary_file tt = Ok f.
Proof.
  unfold write_definition.
  destruct (open binary_file tt) as [f|e]; [eauto|].
  unfold bind, emit, lift, outcome; cbn. discriminate.
Qed.

Lemma write_record_eq (binary_file : binary_file) :
  write_record binary_file
  = (record_chunks (_GetName binary_file) (extension (path binary_file)), Ok tt).
Proof. reflexivity. Qed.

Context {RE : ReEngine}.
Variable fs : filesystem.

(** A run that ends normally wrote the definitions of the sorted
    entries, then the opening of the table, then their records in the
    same order, then the closing of the table. *)
Lemma Generate_ok cc_file_path inputs :
  outcome (Generate fs cc_file_path inputs) = Ok tt ->
  exists binary_files,
    sorted_inputs fs inputs = Ok binary_files
    /\ (forall binary_file, In binary_file binary_files ->
          outcome (write_definition binary_file) = Ok tt)
    /\ emitted (Generate fs cc_file_path inputs)
       = flat_map (fun b => emitted (write_definition b)) binary_files
         ++ table_header
         ++ flat_map (fun b => record_chunks (_GetName b) (extension (path b)))
              binary_files
         ++ [closing].
Proof.
  unfold Generate.
  destruct (sorted_inputs fs inputs) as [binary_files|e];
    [|rewrite bind_lift_raise; discriminate].
  rewrite bind_lift_ok. intros H.
  destruct (bind_outcome_ok _ _ _ H) as ([] & Hdefs & _).
  destruct (for_each_ok_inv _ _ Hdefs) as [Heq Hall].
  exists binary_files. split; [reflexivity|]. split; [exact Hall|].
  rewrite Heq.
  rewrite (for_each_total write_record
             (fun b => record_chunks (_GetName b) (extension (path b))))
    by (intros; apply write_record_eq).
  reflexivity.
Qed.

End Writes.

(* ===================================================================== *)
(** * Arrays *)
(* ===================================================================== *)

Section Arrays.

Lemma text_cons x l : text (x :: l) = x +s+ text l.
Proof.
  unfold text. destruct l; cbn [String.concat String.append].
  - now rewrite append_nil_r.
  - reflexivity.
Qed.

(** An element is read back as the byte it was written for. *)
Lemma element_decodes (b : byte) (rest : string) :
  decode_elements None (element b +s+ rest)
  = match decode_elements None rest with
    | Some bs => Some (b :: bs)
    | None => None
    end.
Proof. destruct b; reflexivity. Qed.

Lemma elements_roundtrip (f : list byte) :
  decode_elements None (text (map element f ++ [closing])) = Some f.
Proof.
  induction f as [|b f IH]; cbn [map app].
  - reflexivity.
  - now rewrite text_cons, element_decodes, IH.
Qed.

(** The array of an empty stream has no element. *)
Lemma empty_array_text name :
  text (array_chunks name [])
  = "static constexpr uint8 k" +s+ name +s+ "[] = { " +s+ closing.
Proof.
  unfold array_chunks. cbn [map app].
  rewrite !text_cons. cbn [text String.concat].
  now rewrite append_nil_r, !append_assoc.
Qed.

Lemma ord_is_byte_value (f : list byte) : Forall (fun b => (ord b <= 255)%N) f.
Proof. apply Forall_forall. intros b _. apply Byte.to_N_bounded. Qed.

(** No chunk of a definition is the opening of a record. *)
Lemma element_not_record_open b : element b <> record_open.
Proof. destruct b; discriminate. Qed.

Lemma record_count_app l1 l2 :
  record_count (l1 ++ l2) = record_count l1 + record_count l2.
Proof. apply count_occ_app. Qed.

Lemma record_count_elements f : record_count (map element f) = 0.
Proof.
  induction f as [|b f IH]; [reflexivity|].
  cbn [map]. unfold record_count in *.
  rewrite count_occ_cons_neq by apply element_not_record_open.
  exact IH.
Qed.

Lemma record_count_definition name p f :
  record_count (array_chunks name f ++ [path_chunk name p]) = 0.
Proof.
  unfold array_chunks. cbn [app]. rewrite <- app_assoc.
  unfold record_count.
  rewrite count_occ_cons_neq by (cbn; discriminate).
  fold (record_count (map element f ++ [closing] ++ [path_chunk name p])).
  rewrite record_count_app, record_count_elements.
  unfold record_count. cbn [count_occ app].
  repeat (destruct (string_dec _ _) as [E|_]; [discriminate E|]).
  reflexivity.
Qed.

Lemma record_count_record name ext : record_count (record_chunks name ext) = 1.
Proof.
  unfold record_count, record_chunks. cbn [count_occ].
  destruct (string_dec _ _) as [_|N]; [|now elim N].
  repeat (destruct (string_dec _ _) as [E|_]; [discriminate E|]).
  reflexivity.
Qed.

Lemma record_count_flat_map {A} (f : A -> list string) (n : nat) (l : list A) :
  (forall x, In x l -> record_count (f x) = n) ->
  record_count (flat_map f l) = n * List.length l.
Proof.
  induction l as [|x l IH]; cbn [flat_map List.length]; intros H.
  - unfold record_count. cbn. lia.
  - rewrite record_count_app, (H x (or_introl eq_refl)), IH
      by (intros; apply H; now right).
    lia.
Qed.

End Arrays.

(* ===================================================================== *)
(** * The generated file *)
(* ===================================================================== *)

Section Generated.

Context {RE : ReEngine}.
Variable fs : filesystem.

Lemma sorted_inputs_ok inputs binary_files :
  sorted_inputs fs inputs = Ok binary_files ->
  outcome (EnumerateInputs fs inputs) = Ok tt
  /\ binary_files = sorted path (emitted (EnumerateInputs fs inputs)).
Proof.
  unfold sorted_inputs.
  destruct (outcome (EnumerateInputs fs inputs)) as [[]|e]; [|discriminate].
  intros [= <-]. now split.
Qed.

(** C1.  In a run that ends normally, every enumerated entry has its
    array in what is written: the opening, then one element for each byte
    that the stream of the entry gives, in order and up to the end of the
    stream, then the closing.  Each element is the decimal writing of a
    value of at most 255, and reading the elements back gives the bytes
    of the stream, whatever their number; for a stream of no byte the
    array is the opening followed by the closing. *)
Theorem array_holds_the_bytes (cc_file_path : string) (inputs : list string) :
  outcome (Generate fs cc_file_path inputs) = Ok tt ->
  Forall (fun binary_file =>
            exists f before after,
              open binary_file tt = Ok f
              /\ emitted (Generate fs cc_file_path inputs)
                 = before ++ array_chunks (_GetName binary_file) f ++ after
              /\ Forall (fun b => (ord b <= 255)%N) f
              /\ decode_elements None
                   (text (tl (array_chunks (_GetName binary_file) f)))
                 = Some f
              /\ (f = [] ->
                  text (array_chunks (_GetName binary_file) f)
                  = "static constexpr uint8 k" +s+ _GetName binary_file
                    +s+ "[] = { " +s+ closing))
         (emitted (EnumerateInputs fs inputs)).
Proof.
  intros Hok.
  destruct (Generate_ok fs _ _ Hok) as (binary_files & Hsorted & Hall & Hout).
  destruct (sorted_inputs_ok _ _ Hsorted) as [_ ->].
  apply Forall_forall. intros binary_file Hin.
  assert (Hin' : In binary_file (sorted path (emitted (EnumerateInputs fs inputs))))
    by (eapply Permutation_in; [symmetry; apply sorted_perm|exact Hin]).
  destruct (write_definition_ok_inv _ (Hall _ Hin')) as [f Hopen].
  destruct (in_split _ _ Hin') as (l1 & l2 & Hsplit).
  exists f, (flat_map (fun b => emitted (write_definition b)) l1).
  eexists. split; [exact Hopen|]. split; [|split; [|split]].
  - rewrite Hout, Hsplit, flat_map_app. cbn [flat_map].
    rewrite (write_definition_ok _ _ Hopen). cbn [emitted fst].
    rewrite <- !app_assoc. reflexivity.
  - apply ord_is_byte_value.
  - apply elements_roundtrip.
  - intros ->. apply empty_array_text.
Qed.

(** C2, as the code has it.  The entries are written in ascending order
    of path, character code by character code; entries of equal path,
    which overlapping sources give, stay next to each other in the order
    of their enumeration; and the order is strictly ascending when the
    enumerated paths are all different. *)
Theorem entries_in_ascending_order
        (inputs : list string) (binary_files : list binary_file) :
  sorted_inputs fs inputs = Ok binary_files ->
  StronglySorted path_le (map path binary_files)
  /\ Permutation binary_files (emitted (EnumerateInputs fs inputs))
  /\ (forall p,
        filter (fun b => String.eqb (path b) p) binary_files
        = filter (fun b => String.eqb (path b) p)
            (emitted (EnumerateInputs fs inputs)))
  /\ (NoDup (map path (emitted (EnumerateInputs fs inputs))) ->
      StronglySorted path_lt (map path binary_files))
  /\ (forall cc_file_path,
        outcome (Generate fs cc_file_path inputs) = Ok tt ->
        emitted (Generate fs cc_file_path inputs)
        = flat_map (fun b => emitted (write_definition b)) binary_files
          ++ table_header
          ++ flat_map (fun b => record_chunks (_GetName b) (extension (path b)))
               binary_files
          ++ [closing]).
Proof.
  intros Hsorted.
  destruct (sorted_inputs_ok _ _ Hsorted) as [_ Heq].
  split; [|split; [|split; [|split]]].
  - subst. apply sorted_ascending.
  - subst. apply sorted_perm.
  - intros p. subst. apply sorted_stable.
  - intros Hnd. apply ascending_distinct_strict.
    + subst. apply sorted_ascending.
    + eapply Permutation_NoDup; [|exact Hnd].
      apply Permutation_map. subst. symmetry. apply sorted_perm.
  - intros cc_file_path Hok.
    destruct (Generate_ok fs _ _ Hok) as (binary_files' & Hsorted' & _ & Hout).
    rewrite Hsorted in Hsorted'. now injection Hsorted' as <-.
Qed.

(** C5.  In a run that ends normally the table has one record for each
    match of a path by the pattern of its source: the paths of the
    records are, up to their order, the matched paths of the first
    source, then those of the second, and so on, a path that several
    sources match being there once for each of them; the number of
    records is the number of matches. *)
Theorem one_record_per_match (cc_file_path : string) (inputs : list string) :
  outcome (Generate fs cc_file_path inputs) = Ok tt ->
  exists binary_files,
    sorted_inputs fs inputs = Ok binary_files
    /\ Permutation (map path binary_files) (flat_map (matched_paths fs) inputs)
    /\ emitted (Generate fs cc_file_path inputs)
       = flat_map (fun b => emitted (write_definition b)) binary_files
         ++ table_header
         ++ flat_map (fun b => record_chunks (_GetName b) (extension (path b)))
              binary_files
         ++ [closing]
    /\ record_count (emitted (Generate fs cc_file_path inputs))
       = List.length (flat_map (matched_paths fs) inputs).
Proof.
  intros Hok.
  destruct (Generate_ok fs _ _ Hok) as (binary_files & Hsorted & Hall & Hout).
  destruct (sorted_inputs_ok _ _ Hsorted) as [Henum Heq].
  assert (Hperm : Permutation (map path binary_files)
                    (flat_map (matched_paths fs) inputs)).
  { rewrite <- (EnumerateInputs_paths fs inputs Henum).
    apply Permutation_map. subst. apply sorted_perm. }
  exists binary_files. split; [exact Hsorted|]. split; [exact Hperm|].
  split; [exact Hout|].
  rewrite Hout, !record_count_app.
  rewrite (record_count_flat_map _ 0).
  2:{ intros b Hb. destruct (write_definition_ok_inv _ (Hall b Hb)) as [f Hf].
      rewrite (write_definition_ok _ _ Hf). apply record_count_definition. }
  rewrite (record_count_flat_map _ 1)
    by (intros; apply record_count_record).
  rewrite <- (Permutation_length Hperm), length_map.
  change (record_count table_header) with 0.
  change (record_count [closing]) with 0.
  lia.
Qed.

End Generated.

(* ===================================================================== *)
(** * The generated file on examples *)
(* ===================================================================== *)

(** Streams of three bytes, of one byte and of no byte. *)
Lemma array_holds_the_bytes_witness :
  map (fun b => (path b, open b tt))
      (emitted (EnumerateInputs (RE := MiniRe.engine) example_fs
                  ["/tmp/in:^a/b/One"; "/tmp/file.jar:a"]))
  = [("a/b/One.class", Ok [x47; x49; x48]); ("a/b/c.txt", Ok [x01]);
     ("ax", Ok [])]
  /\ Forall (fun binary_file =>
               exists f before after,
                 open binary_file tt = Ok f
                 /\ emitted (Generate (RE := MiniRe.engine) example_fs "out.inl"
                               ["/tmp/in:^a/b/One"; "/tmp/file.jar:a"])
                    = before ++ array_chunks (_GetName binary_file) f ++ after
                 /\ Forall (fun b => (ord b <= 255)%N) f
                 /\ decode_elements None
                      (text (tl (array_chunks (_GetName binary_file) f)))
                    = Some f
                 /\ (f = [] ->
                     text (array_chunks (_GetName binary_file) f)
                     = "static constexpr uint8 k" +s+ _GetName binary_file
                       +s+ "[] = { " +s+ closing))
            (emitted (EnumerateInputs (RE := MiniRe.engine) example_fs
                        ["/tmp/in:^a/b/One"; "/tmp/file.jar:a"])).
Proof.
  split; [vm_compute; reflexivity|].
  apply (array_holds_the_bytes (RE := MiniRe.engine) example_fs "out.inl"
           ["/tmp/in:^a/b/One"; "/tmp/file.jar:a"]).
  vm_compute. reflexivity.
Defined.

(** The arrays of these three entries, as they are written. *)
Example arrays_of_three_sizes :
  map text
      [array_chunks "One_class" [x47; x49; x48];
       array_chunks "c_txt" [x01];
       array_chunks "ax" []]
  = ["static constexpr uint8 kOne_class[] = { 71, 73, 72, };" +s+ nl;
     "static constexpr uint8 kc_txt[] = { 1, };" +s+ nl;
     "static constexpr uint8 kax[] = { };" +s+ nl].
Proof. reflexivity. Qed.

(** The same file is matched by two sources: its path is there twice, and
    the order is not strictly ascending. *)
Lemma equal_paths_from_overlapping_sources :
  (exists binary_files,
     sorted_inputs (RE := MiniRe.engine) example_fs
       ["/tmp/in:^a/b/One"; "/tmp/in:^a/b/One"] = Ok binary_files
     /\ map path binary_files = ["a/b/One.class"; "a/b/One.class"])
  /\ ~ strictly_ascending (RE := MiniRe.engine) example_fs
         ["/tmp/in:^a/b/One"; "/tmp/in:^a/b/One"].
Proof.
  split.
  - eexists. split; [vm_compute; reflexivity|]. vm_compute. reflexivity.
  - intros H.
    specialize (H (sorted path
                     (emitted (EnumerateInputs (RE := MiniRe.engine) example_fs
                                 ["/tmp/in:^a/b/One"; "/tmp/in:^a/b/One"])))
                  eq_refl).
    assert (Hpaths :
              map path
                (sorted path
                   (emitted (EnumerateInputs (RE := MiniRe.engine) example_fs
                               ["/tmp/in:^a/b/One"; "/tmp/in:^a/b/One"])))
              = ["a/b/One.class"; "a/b/One.class"])
      by (vm_compute; reflexivity).
    rewrite Hpaths in H.
    inversion H as [|? ? _ Hall]; subst.
    inversion Hall as [|? ? Hlt _]; subst.
    exact (path_lt_irrefl _ Hlt).
Qed.

Lemma entries_in_ascending_order_witness :
  map path
      (sorted path
         (emitted (EnumerateInputs (RE := MiniRe.engine) example_fs
                     ["/tmp/file.jar:"; "/tmp/in:^a/b/One"])))
  = ["a/b/One.class"; "a/b/c.txt"; "ax"; "x/a/b"]
  /\ StronglySorted path_lt
       (map path
          (sorted path
             (emitted (EnumerateInputs (RE := MiniRe.engine) example_fs
                         ["/tmp/file.jar:"; "/tmp/in:^a/b/One"])))).
Proof.
  split; [vm_compute; reflexivity|].
  apply (entries_in_ascending_order (RE := MiniRe.engine) example_fs
           ["/tmp/file.jar:"; "/tmp/in:^a/b/One"] _ eq_refl).
  vm_compute.
  repeat (constructor; [cbn; intuition discriminate|]).
  constructor.
Defined.

(** Two sources on the same directory, the second matching a file that the
    first matches too: three records. *)
Lemma one_record_per_match_witness :
  flat_map (matched_paths (RE := MiniRe.engine) example_fs)
           ["/tmp/in:^a"; "/tmp/in:^a/b/One"]
  = ["a/b/One.class"; "a/b/file.txt"; "a/b/One.class"]
  /\ record_count (emitted (Generate (RE := MiniRe.engine) example_fs "out.inl"
                              ["/tmp/in:^a"; "/tmp/in:^a/b/One"]))
     = 3.
Proof.
  split; [vm_compute; reflexivity|].
  destruct (one_record_per_match (RE := MiniRe.engine) example_fs "out.inl"
              ["/tmp/in:^a"; "/tmp/in:^a/b/One"])
    as (binary_files & _ & _ & _ & Hcount).
  - vm_compute. reflexivity.
  - rewrite Hcount. vm_compute. reflexivity.
Defined.

(** The scenario of the header of the script, on [/tmp/in]: one array, one
    path and a table of one record. *)
Example one_class_file :
  Generate (RE := MiniRe.engine) example_fs "out.inl" ["/tmp/in:^a/b/.*\.class$"]
  = (["static constexpr uint8 kOne_class[] = { "; "71, "; "73, "; "72, ";
      "};" +s+ nl;
      "static constexpr char kOne_class_path[] = " +s+ dq +s+ "a/b/One.class"
        +s+ dq +s+ ";" +s+ nl]
     ++ table_header
     ++ ["  {" +s+ nl;
         "    kOne_class_path," +s+ nl;
         "    " +s+ dq +s+ "class" +s+ dq +s+ "," +s+ nl;
         "    kOne_class," +s+ nl;
         "    arraysize(kOne_class)" +s+ nl;
         "  }," +s+ nl;
         "};" +s+ nl],
     Ok tt).
Proof. vm_compute. reflexivity. Qed.

(** A pattern that matches nothing: no definition and an empty table. *)
Example no_match :
  Generate (RE := MiniRe.engine) example_fs "out.inl" ["/tmp/in:^b"]
  = (table_header ++ ["};" +s+ nl], Ok tt).
Proof. vm_compute. reflexivity. Qed.

(* ===================================================================== *)
(** * More on names and extensions *)
(* ===================================================================== *)

Section NameShape.

Lemma contains_map_sanitize c s :
  sanitize c = c -> (forall a, sanitize a = c -> a = c) ->
  contains c (map_string sanitize s) = contains c s.
Proof.
  intros Hfix Hinv. induction s as [|a s IH]; cbn; [reflexivity|].
  rewrite IH. f_equal.
  destruct (Ascii.eqb_spec (sanitize a) c) as [H|H];
    destruct (Ascii.eqb_spec a c) as [H'|H']; try reflexivity.
  - elim H'. now apply Hinv.
  - elim H. now rewrite H'.
Qed.

Lemma sanitized_has_no c s :
  (forall a, sanitize a <> c) -> contains c (map_string sanitize s) = false.
Proof.
  intros H. induction s as [|a s IH]; cbn; [reflexivity|].
  rewrite IH. now destruct (Ascii.eqb_spec (sanitize a) c) as [E|_]; [elim (H a)|].
Qed.

Lemma sanitize_not_dot a : sanitize a <> "."%char.
Proof.
  unfold sanitize. destruct (Ascii.eqb_spec a "."); [discriminate|].
  destruct (Ascii.eqb_spec a "$"); [discriminate|assumption].
Qed.

Lemma sanitize_not_dollar a : sanitize a <> "$"%char.
Proof.
  unfold sanitize. destruct (Ascii.eqb_spec a "."); [discriminate|].
  destruct (Ascii.eqb_spec a "$"); [discriminate|assumption].
Qed.

Lemma sanitize_slash a : sanitize a = "/"%char -> a = "/"%char.
Proof.
  unfold sanitize. destruct (Ascii.eqb_spec a "."); [discriminate|].
  destruct (Ascii.eqb_spec a "$"); [discriminate|auto].
Qed.

Lemma length_map_string f s : String.length (map_string f s) = String.length s.
Proof. induction s; cbn; congruence. Qed.

Lemma final_segment_no_sep p seg : final_segment p seg -> contains "/" seg = false.
Proof. intros [Hno -> | dir _ Hno]; assumption. Qed.

(** A string that holds [c] splits at its last [c]. *)
Lemma split_at_last c s :
  contains c s = true ->
  exists u v, s = u +s+ String c v /\ contains c v = false.
Proof.
  induction s as [|a s IH]; cbn; [discriminate|].
  destruct (contains c s) eqn:Hs.
  - intros _. destruct (IH eq_refl) as (u & v & -> & Hv).
    now exists (String a u), v.
  - rewrite orb_false_r. intros Ha. apply Ascii.eqb_eq in Ha. subst a.
    now exists EmptyString, s.
Qed.

End NameShape.

(** X1.  The identifier that [_GetName] gives has the length of the final
    segment of the path and holds no dot, no dollar sign and no separator,
    whatever the path. *)
Theorem GetName_has_no_dot_dollar_separator (item : binary_file) :
  contains "." (_GetName item) = false
  /\ contains "$" (_GetName item) = false
  /\ contains "/" (_GetName item) = false
  /\ String.length (_GetName item)
     = String.length (PosixPath.basename (path item)).
Proof.
  destruct (final_segment_exists (path item)) as [seg Hseg].
  unfold _GetName.
  rewrite replace_replace_sanitize, (basename_final_segment _ _ Hseg).
  repeat split.
  - apply sanitized_has_no, sanitize_not_dot.
  - apply sanitized_has_no, sanitize_not_dollar.
  - rewrite contains_map_sanitize.
    + now apply (final_segment_no_sep (path item)).
    + reflexivity.
    + apply sanitize_slash.
  - apply length_map_string.
Qed.

(** X2.  The extension written in a record holds no dot and no separator,
    and when it is not empty the path ends with a dot followed by it. *)
Theorem extension_is_last_suffix (p : string) :
  contains "." (extension p) = false
  /\ contains "/" (extension p) = false
  /\ (extension p <> EmptyString ->
      exists q, p = q +s+ String "." (extension p)).
Proof.
  destruct (final_segment_exists p) as [seg Hseg].
  destruct (contains "." seg) eqn:Hdot.
  - destruct (split_at_last _ _ Hdot) as (stem & e & -> & He).
    unfold extension. rewrite (splitext_dot _ _ _ Hseg He).
    destruct (all_dots stem); cbn [snd sub_leading_dot].
    + repeat split; congruence.
    + split; [exact He|]. split.
      * pose proof (final_segment_no_sep _ _ Hseg) as Hno.
        rewrite contains_append in Hno. cbn [contains] in Hno.
        apply orb_false_iff in Hno as [_ Hno].
        now apply orb_false_iff in Hno as [_ Hno].
      * intros _.
        destruct (final_segment_split _ _ Hseg) as (pre & -> & _).
        exists (pre +s+ stem). now rewrite append_assoc.
  - unfold extension. rewrite (splitext_no_dot _ _ Hseg Hdot).
    repeat split; cbn; congruence.
Qed.

Lemma extension_is_last_suffix_witness :
  extension "a.b/archive.tar.gz" = "gz"
  /\ exists q, "a.b/archive.tar.gz" = q +s+ String "." (extension "a.b/archive.tar.gz").
Proof.
  split; [reflexivity|].
  apply (proj2 (proj2 (extension_is_last_suffix "a.b/archive.tar.gz"))).
  discriminate.
Defined.

(* ===================================================================== *)
(** * More on arguments and failures *)
(* ===================================================================== *)

Section MoreFailures.

Context {RE : ReEngine}.
Variable fs : filesystem.

Lemma help_flag_has_no_colon flag :
  is_help_flag flag = true -> contains ":" flag = false.
Proof.
  unfold is_help_flag. cbn [existsb]. rewrite !orb_true_iff.
  intros [H|[H|[H|[H|H]]]]; try discriminate;
    apply String.eqb_eq in H; now subst.
Qed.

Lemma eff_eta {W A} (m : eff W A) : m = (emitted m, outcome m).
Proof. now destruct m. Qed.

(** X3.  What follows a second colon in an argument is not read: the
    argument is enumerated as if it stopped before that colon. *)
Theorem text_after_second_colon_ignored (entry source tail : string) :
  contains ":" entry = false ->
  contains ":" source = false ->
  enumerate_input fs (entry +s+ String ":" (source +s+ String ":" tail))
  = enumerate_input fs (entry +s+ String ":" source).
Proof.
  intros He Hs.
  rewrite !enumerate_input_eq.
  now rewrite (split_two_colons entry source tail He Hs),
    (split_one_colon entry source He Hs).
Qed.

(** X4.  [main] knows a help flag only as its first argument: there it
    prints the usage whatever follows, and after the path of the output
    file it is taken for a source, which fails with [IndexError] since a
    flag has no colon. *)
Theorem help_flag_only_first (prog cc_file_path flag : string) (rest : list string) :
  is_help_flag flag = true ->
  is_help_flag cc_file_path = false ->
  main fs (prog :: flag :: rest) = Usage
  /\ main fs (prog :: cc_file_path :: flag :: rest)
     = Generated ([], Raise IndexError).
Proof.
  intros Hflag Hcc. split.
  - unfold main. cbn [nth]. fold (is_help_flag flag).
    now rewrite Hflag, orb_true_r.
  - rewrite main_generates by (assumption || discriminate).
    f_equal. apply Generate_raise.
    assert (Hspec : enumerate_input fs flag = ([], Raise IndexError)).
    { rewrite enumerate_input_eq, split_no_sep; [reflexivity|].
      now apply help_flag_has_no_colon. }
    pose proof (EnumerateInputs_raise_at fs [] rest flag [] IndexError
                  eq_refl Hspec) as H.
    cbn [app] in H. now rewrite H.
Qed.

(** X5.  The first source that fails ends the run: its exception leaves
    [Generate] with nothing written, and the arguments after it are not
    looked at. *)
Theorem first_failure_ends_the_run
        (cc_file_path spec : string) (pre post post' : list string) (e : exn) :
  outcome (EnumerateInputs fs pre) = Ok tt ->
  outcome (enumerate_input fs spec) = Raise e ->
  Generate fs cc_file_path (pre ++ spec :: post) = ([], Raise e)
  /\ EnumerateInputs fs (pre ++ spec :: post)
     = EnumerateInputs fs (pre ++ spec :: post').
Proof.
  intros Hpre Hspec.
  assert (Heq : enumerate_input fs spec
                = (emitted (enumerate_input fs spec), Raise e))
    by (rewrite <- Hspec; apply eff_eta).
  split.
  - apply Generate_raise.
    now rewrite (EnumerateInputs_raise_at fs pre post spec _ e Hpre Heq).
  - now rewrite (EnumerateInputs_raise_at fs pre post spec _ e Hpre Heq),
      (EnumerateInputs_raise_at fs pre post' spec _ e Hpre Heq).
Qed.


(** X7.  When an entry does not open, the run stops there with the
    exception: the definitions of the entries sorted before it are written,
    then the opening of its array, and neither the end of that array nor the
    table. *)
Theorem Generate_stops_at_first_failing_open
        (cc_file_path : string) (inputs : list string)
        (pre post : list binary_file) (binary_file : binary_file) (e : exn) :
  sorted_inputs fs inputs = Ok (pre ++ binary_file :: post) ->
  (forall b, In b pre -> exists f, open b tt = Ok f) ->
  open binary_file tt = Raise e ->
  Generate fs cc_file_path inputs
  = (flat_map (fun b => emitted (write_definition b)) pre
       ++ [array_open (_GetName binary_file)],
     Raise e).
Proof.
  intros Hsorted Hpre Hopen.
  unfold Generate. rewrite Hsorted, bind_lift_ok.
  assert (Hdefs : for_each pre write_definition
                  = (flat_map (fun b => emitted (write_definition b)) pre, Ok tt)).
  { apply for_each_total. intros b Hb. destruct (Hpre b Hb) as [f Hf].
    now rewrite (write_definition_ok _ _ Hf). }
  assert (Hfail : write_definition binary_file
                  = ([array_open (_GetName binary_file)], Raise e)).
  { unfold write_definition. cbv zeta. now rewrite Hopen. }
  rewrite (bind_raise _ _ e).
  - rewrite (for_each_raise_at write_definition pre post binary_file e).
    + now rewrite Hdefs, Hfail.
    + now rewrite Hdefs.
    + now rewrite Hfail.
  - rewrite (for_each_raise_at write_definition pre post binary_file e).
    + reflexivity.
    + now rewrite Hdefs.
    + now rewrite Hfail.
Qed.

(** X8.  When the sources are enumerated without an error and no path is
    matched, what is written is the table with no record and nothing
    else. *)
Theorem no_match_empty_table (cc_file_path : string) (inputs : list string) :
  outcome (EnumerateInputs fs inputs) = Ok tt ->
  flat_map (matched_paths fs) inputs = [] ->
  Generate fs cc_file_path inputs = (table_header ++ [closing], Ok tt).
Proof.
  intros Henum Hnone.
  pose proof (EnumerateInputs_paths fs inputs Henum) as Hpaths.
  rewrite Hnone in Hpaths. apply map_eq_nil in Hpaths.
  unfold Generate, sorted_inputs. rewrite Henum, Hpaths.
  reflexivity.
Qed.

End MoreFailures.

(* ===================================================================== *)
(** * The order of the arguments and entries of the same name *)
(* ===================================================================== *)

Section OrderOfArguments.


Context {A : Type} (key : A -> string).



End OrderOfArguments.

Section Collisions.

Context {RE : ReEngine}.
Variable fs : filesystem.


Lemma GetName_of_final_segment (item : binary_file) (seg : string) :
  final_segment (path item) seg -> _GetName item = map_string sanitize seg.
Proof.
  intros H. unfold _GetName.
  now rewrite (basename_final_segment _ _ H), replace_replace_sanitize.
Qed.

Lemma count_occ_flat_map_perm {B} (f : B -> list string) (x : string)
      (l l' : list B) :
  Permutation l l' ->
  count_occ string_dec (flat_map f l) x = count_occ string_dec (flat_map f l') x.
Proof.
  intros H. apply Permutation_count_occ. now apply Permutation_flat_map.
Qed.

(** X10.  No check keeps the identifiers apart: when two enumerated
    entries have final segments that are the same once dots and dollar
    signs are underscores (the same file name in two directories, say), a
    run that ends normally writes the opening of an array of the same
    identifier twice at least. *)
Theorem same_final_segment_same_identifier
        (cc_file_path : string) (inputs : list string)
        (l1 l2 l3 : list binary_file) (b1 b2 : binary_file) (seg1 seg2 : string) :
  outcome (Generate fs cc_file_path inputs) = Ok tt ->
  emitted (EnumerateInputs fs inputs) = l1 ++ b1 :: l2 ++ b2 :: l3 ->
  final_segment (path b1) seg1 ->
  final_segment (path b2) seg2 ->
  map_string sanitize seg1 = map_string sanitize seg2 ->
  _GetName b1 = _GetName b2
  /\ 2 <= count_occ string_dec (emitted (Generate fs cc_file_path inputs))
            (array_open (map_string sanitize seg1)).
Proof.
  intros Hok Hemit Hseg1 Hseg2 Hsame.
  pose proof (GetName_of_final_segment _ _ Hseg1) as Hn1.
  pose proof (GetName_of_final_segment _ _ Hseg2) as Hn2.
  rewrite <- Hsame in Hn2.
  split; [congruence|].
  destruct (Generate_ok fs _ _ Hok) as (binary_files & Hsorted & Hall & Hout).
  destruct (sorted_inputs_ok fs _ _ Hsorted) as [_ Hbf].
  assert (Hperm : Permutation binary_files (b1 :: b2 :: l1 ++ l2 ++ l3)).
  { subst binary_files. rewrite sorted_perm, Hemit.
    rewrite <- Permutation_middle. constructor.
    rewrite app_assoc, <- Permutation_middle. now rewrite <- app_assoc. }
  assert (Hopen : forall b, In b binary_files ->
            exists rest, emitted (write_definition b)
                         = array_open (_GetName b) :: rest).
  { intros b Hb. destruct (write_definition_ok_inv _ (Hall b Hb)) as [f Hf].
    rewrite (write_definition_ok _ _ Hf). cbn [emitted fst array_chunks app].
    eauto. }
  destruct (Hopen b1) as [r1 Hr1];
    [eapply Permutation_in; [symmetry; exact Hperm|now left]|].
  destruct (Hopen b2) as [r2 Hr2];
    [eapply Permutation_in; [symmetry; exact Hperm|right; now left]|].
  rewrite Hout, count_occ_app.
  rewrite (count_occ_flat_map_perm _ _ _ _ Hperm).
  cbn [flat_map]. rewrite !count_occ_app, Hr1, Hr2, Hn1, Hn2.
  rewrite !count_occ_cons_eq by reflexivity. lia.
Qed.


End Collisions.

(* ===================================================================== *)
(** * Entries of directories and directory members of archives *)
(* ===================================================================== *)

Section DirectoryEntries.

Context {RE : ReEngine}.
Variable fs : filesystem.

Lemma concat_cons_nonempty sep x y l :
  String.concat sep (x :: y :: l) = x +s+ sep +s+ String.concat sep (y :: l).
Proof. reflexivity. Qed.

(** The final segment of the relative path of a file is its name. *)
Lemma relpath_final_segment root file_name :
  contains "/" file_name = false ->
  final_segment (relpath root file_name) file_name.
Proof.
  intros Hno. unfold relpath.
  induction root as [|r root IH]; cbn [app].
  - now apply final_whole.
  - destruct (root ++ [file_name]) as [|y l] eqn:Hl;
      [now destruct root|].
    rewrite concat_cons_nonempty. cbn [String.append].
    destruct IH as [_ Heq | dir Heq _].
    + rewrite <- Heq. now apply (final_after _ _ r).
    + rewrite Heq. apply (final_after _ _ (r +s+ String "/" dir)); [|assumption].
      now rewrite append_assoc.
Qed.

(** X12.  Every entry that a directory source yields is a file that the
    walk of the directory lists, under the path made of the directory names
    from the source down to it and of its name, and this path matches the
    pattern; its identifier is made from the name of the file alone. *)
Theorem directory_entry_named_after_file
        (spec entry source : string) (rest : list string) (pattern : Pattern) :
  split ":" 2 spec = entry :: source :: rest ->
  re_compile source = Ok pattern ->
  isdir fs entry = true ->
  outcome (enumerate_input fs spec) = Ok tt
  /\ Forall (fun binary_file =>
               exists root dirs files file_name,
                 In (root, dirs, files) (walk fs entry)
                 /\ In file_name files
                 /\ path binary_file = relpath root file_name
                 /\ Pattern_match pattern (path binary_file) = true
                 /\ open binary_file tt = open_rb fs entry root file_name
                 /\ (contains "/" file_name = false ->
                     _GetName binary_file = map_string sanitize file_name))
            (emitted (enumerate_input fs spec)).
Proof.
  intros Hsplit Hre Hdir.
  rewrite enumerate_input_eq, Hsplit, Hre, Hdir.
  split; [reflexivity|].
  cbn [emitted fst]. apply Forall_forall. intros binary_file Hin.
  unfold dir_entries in Hin.
  apply in_flat_map in Hin as ([[root dirs] files] & Hwalk & Hin).
  apply in_map_iff in Hin as (file_name & <- & Hfile).
  apply filter_In in Hfile as [Hfile Hmatch].
  exists root, dirs, files, file_name. cbn [path open].
  repeat split; try assumption.
  intros Hno. unfold _GetName. cbn [path].
  now rewrite (basename_final_segment _ _ (relpath_final_segment root _ Hno)),
    replace_replace_sanitize.
Qed.

(** X13.  An entry whose path ends with a separator, as the directory
    members of an archive do, has the empty name and the empty extension:
    its array is [k] and all such entries share it. *)
Theorem trailing_separator_empty_name (item : binary_file) (dir : string) :
  path item = dir +s+ String "/" EmptyString ->
  _GetName item = EmptyString
  /\ extension (path item) = EmptyString
  /\ emitted (write_record item)
     = record_chunks EmptyString EmptyString.
Proof.
  intros Hpath.
  assert (Hseg : final_segment (path item) EmptyString)
    by (now apply (final_after _ _ dir)).
  assert (Hname : _GetName item = EmptyString).
  { unfold _GetName.
    now rewrite (basename_final_segment _ _ Hseg). }
  assert (Hext : extension (path item) = EmptyString).
  { unfold extension. now rewrite (splitext_no_dot _ _ Hseg eq_refl). }
  repeat split; try assumption.
  rewrite write_record_eq. cbn [emitted fst]. now rewrite Hname, Hext.
Qed.

End DirectoryEntries.

(* ===================================================================== *)
(** * More examples *)
(* ===================================================================== *)

Lemma text_after_second_colon_ignored_witness :
  enumerate_input (RE := MiniRe.engine) example_fs "/tmp/file.jar:^a:b"
  = enumerate_input (RE := MiniRe.engine) example_fs "/tmp/file.jar:^a"
  /\ map path (emitted (enumerate_input (RE := MiniRe.engine) example_fs
                          "/tmp/file.jar:^a:b"))
     = ["a/b/c.txt"; "ax"].
Proof.
  split; [|vm_compute; reflexivity].
  apply (text_after_second_colon_ignored (RE := MiniRe.engine) example_fs
           "/tmp/file.jar" "^a" "b"); reflexivity.
Defined.

Lemma help_flag_only_first_witness :
  main (RE := MiniRe.engine) example_fs
    ["static_def_gen.py"; "--help"; "/tmp/in:^a"]
  = Usage
  /\ main (RE := MiniRe.engine) example_fs
       ["static_def_gen.py"; "out.inl"; "--help"; "/tmp/in:^a"]
     = Generated ([], Raise IndexError).
Proof.
  apply (help_flag_only_first (RE := MiniRe.engine) example_fs
           "static_def_gen.py" "out.inl" "--help" ["/tmp/in:^a"]);
    reflexivity.
Defined.

(** [/tmp/notes.txt] is not an archive: the archive after it is not
    opened and nothing is written. *)
Lemma first_failure_ends_the_run_witness :
  Generate (RE := MiniRe.engine) example_fs "out.inl"
    ["/tmp/in:^a"; "/tmp/notes.txt:^a"; "/tmp/file.jar:a"]
  = ([], Raise BadZipFile)
  /\ EnumerateInputs (RE := MiniRe.engine) example_fs
       ["/tmp/in:^a"; "/tmp/notes.txt:^a"; "/tmp/file.jar:a"]
     = EnumerateInputs (RE := MiniRe.engine) example_fs
         ["/tmp/in:^a"; "/tmp/notes.txt:^a"].
Proof.
  apply (first_failure_ends_the_run (RE := MiniRe.engine) example_fs "out.inl"
           "/tmp/notes.txt:^a" ["/tmp/in:^a"] ["/tmp/file.jar:a"] []
           BadZipFile);
    vm_compute; reflexivity.
Defined.


(** [y/Secret.bin] may not be read: the two definitions before it are
    written, then the opening of its array. *)
Lemma Generate_stops_at_first_failing_open_witness :
  Generate (RE := MiniRe.engine) example_fs_res "out.inl" ["/tmp/res:"]
  = (array_chunks "Same_class" [x01] ++ [path_chunk "Same_class" "x/Same.class"]
     ++ array_chunks "Same_class" [x02] ++ [path_chunk "Same_class" "y/Same.class"]
     ++ [array_open "Secret_bin"],
     Raise PermissionError).
Proof.
  pose (l := sorted path
               (emitted (EnumerateInputs (RE := MiniRe.engine) example_fs_res
                           ["/tmp/res:"]))).
  rewrite (Generate_stops_at_first_failing_open (RE := MiniRe.engine)
             example_fs_res "out.inl" ["/tmp/res:"]
             (firstn 2 l) (skipn 3 l) (nth 2 l (example_file EmptyString []))
             PermissionError).
  - vm_compute. reflexivity.
  - vm_compute. reflexivity.
  - intros b Hb. vm_compute in Hb.
    destruct Hb as [<-|[<-|[]]]; eexists; reflexivity.
  - vm_compute. reflexivity.
Defined.

Lemma no_match_empty_table_witness :
  Generate (RE := MiniRe.engine) example_fs "out.inl"
    ["/tmp/in:^b"; "/tmp/file.jar:^zz"]
  = (table_header ++ [closing], Ok tt).
Proof.
  apply (no_match_empty_table (RE := MiniRe.engine) example_fs "out.inl"
           ["/tmp/in:^b"; "/tmp/file.jar:^zz"]);
    vm_compute; reflexivity.
Defined.


(** [x/Same.class] and [y/Same.class]: the array [kSame_class] is opened
    twice. *)
Lemma same_final_segment_same_identifier_witness :
  map path (emitted (EnumerateInputs (RE := MiniRe.engine) example_fs_res
                       ["/tmp/res:^./Same"]))
  = ["x/Same.class"; "y/Same.class"]
  /\ 2 <= count_occ string_dec
            (emitted (Generate (RE := MiniRe.engine) example_fs_res "out.inl"
                        ["/tmp/res:^./Same"]))
            (array_open "Same_class").
Proof.
  split; [vm_compute; reflexivity|].
  pose (l := emitted (EnumerateInputs (RE := MiniRe.engine) example_fs_res
                        ["/tmp/res:^./Same"])).
  apply (same_final_segment_same_identifier (RE := MiniRe.engine)
           example_fs_res "out.inl" ["/tmp/res:^./Same"] [] [] []
           (nth 0 l (example_file EmptyString []))
           (nth 1 l (example_file EmptyString [])) "Same.class" "Same.class").
  - vm_compute. reflexivity.
  - vm_compute. reflexivity.
  - now apply (final_after _ _ "x").
  - now apply (final_after _ _ "y").
  - reflexivity.
Defined.


Lemma directory_entry_named_after_file_witness :
  map (fun b => (path b, _GetName b))
      (emitted (enumerate_input (RE := MiniRe.engine) example_fs
                  "/tmp/in:^a/b/.*\.class$"))
  = [("a/b/One.class", "One_class")]
  /\ Forall (fun binary_file =>
               exists root dirs files file_name,
                 In (root, dirs, files) (walk example_fs "/tmp/in")
                 /\ In file_name files
                 /\ path binary_file = relpath root file_name
                 /\ MiniRe.match_ example_class_pattern (path binary_file) = true
                 /\ open binary_file tt
                    = open_rb example_fs "/tmp/in" root file_name
                 /\ (contains "/" file_name = false ->
                     _GetName binary_file = map_string sanitize file_name))
            (emitted (enumerate_input (RE := MiniRe.engine) example_fs
                        "/tmp/in:^a/b/.*\.class$")).
Proof.
  split; [vm_compute; reflexivity|].
  apply (directory_entry_named_after_file (RE := MiniRe.engine) example_fs
           "/tmp/in:^a/b/.*\.class$" "/tmp/in" "^a/b/.*\.class$" []
           example_class_pattern);
    reflexivity.
Defined.

Lemma trailing_separator_empty_name_witness :
  _GetName (example_file "META-INF/" []) = EmptyString
  /\ extension (path (example_file "META-INF/" [])) = EmptyString
  /\ emitted (write_record (example_file "META-INF/" []))
     = record_chunks EmptyString EmptyString.
Proof.
  apply (trailing_separator_empty_name (example_file "META-INF/" []) "META-INF").
  reflexivity.
Defined.
